(** * RunClassMethodAction: a shallow embedding of
      [syft/core/node/common/action/run_class_method_action.py]

    The development follows the Python class member by member:
    the permission propagator [intersect_keys], the path classifier at the
    head of [execute_action], the executor itself over an explicit object
    store and object heap, the protobuf mapping, and [remap_input]. *)

From Stdlib Require Import String Ascii.
From stdpp Require Import base option list gmap fin_maps fin_sets strings.

Local Open Scope string_scope.
Local Open Scope list_scope.

(** ** Identifiers, principals, references *)

(** [UID]: an opaque, globally unique token. *)
Definition UID : Type := N.

(** [VerifyKey]: an opaque credential, only ever used as a dictionary key. *)
Definition VerifyKey : Type := N.

(** [Address]: where a message is headed; opaque to this class. *)
Inductive Address : Type := MkAddress (route : list UID).

(** A pointer names a value that lives in some store: the class only reads
    its [id_at_location]. *)
Module Pointer.
Record t : Type := Make { id_at_location : UID; location : option Address }.
End Pointer.

(** Read permissions: [Dict[VerifyKey, UID]], principal to request marker. *)
Abbreviation AccessSet := (gmap VerifyKey UID).

(** ** intersect_keys (lines 71-81) *)

(** [intersection = set(left.keys()).intersection(right.keys())] and then
    [{k: left[k] for k in intersection}]. *)
Definition intersect_keys (left right : AccessSet) : AccessSet :=
  let intersection : gset VerifyKey := dom left ∩ dom right in
  set_to_map (fun k => (k, left !!! k)) intersection.

(** The same operation in the words of the specification: keep the keys
    present on both sides, with the left operand's marker. *)
Definition intersect_spec (left right : AccessSet) : AccessSet :=
  filter (fun kv => is_Some (right !! kv.1)) left.


(** ** Python values that flow through a call

    Payloads are opaque to the executor except for what lines 155 and
    176-195 probe: whether the value is a primitive, whether it is a
    [Plan], whether it is already a [StorableObject], and how its [id] and
    [_id] attributes behave.  Payloads are values here; only Stored Objects
    live in the heap, because the Access Set is the one attribute the
    executor overwrites in place. *)

(** How [result.id] answers to line 183-192. *)
Inductive id_slot : Type :=
| NoId                          (* hasattr(result, "id") is False *)
| IdAttr (i : UID)              (* plain attribute [id], no [_id] *)
| IdBacked (i : UID)            (* [_id] present, [id] reads it *)
| IdReadOnly (i : UID)          (* [id] readable, assignment raises *)
| IdDetached (i _id : UID).     (* [_id] present, [id] does not follow it *)

(** An object identity in the interpreter's heap. *)
Definition loc : Type := positive.

Inductive pyval : Type :=
| Primitive (v : Z)                            (* isprimitive(value) *)
| SyPrimitive (v : Z) (i : UID)                (* generate_primitive(value, id) *)
| Object (is_plan : bool) (slot : id_slot) (v : Z)
| Stored (l : loc).                            (* a StorableObject *)

Definition is_Plan (v : pyval) : bool :=
  match v with Object true _ _ => true | _ => false end.

(** Modelled from the spec: the Stored Object declaration
    ([syft/core/store/storeable_object.py]) is not part of the sources; it
    is a record of identifier, payload and Access Set, with the tags that
    [inherit_tags] writes. *)
Module StorableObject.
Record t : Type := Make {
  id : UID;
  data : pyval;
  read_permissions : AccessSet;
  tags : list string
}.
Definition set_id (i : UID) (o : t) : t :=
  Make i (data o) (read_permissions o) (tags o).
Definition set_read_permissions (p : AccessSet) (o : t) : t :=
  Make (id o) (data o) p (tags o).
Definition set_tags (ts : list string) (o : t) : t :=
  Make (id o) (data o) (read_permissions o) ts.
End StorableObject.

(** ** The node as the executor sees it *)

Inductive log_event : Type :=
| Critical (path : string) (missing : UID)     (* lines 107-110 *)
| Warning (method_name : string).              (* lines 167-169 *)

(** [store] is [node.store]: identifier to the object held.  [heap] gives
    each held object its current attributes, so that two identifiers may
    hold one object and an in-place write is seen through both. *)
Record world : Type := World {
  store : gmap UID loc;
  heap : gmap loc StorableObject.t;
  log : list log_event
}.

Inductive exn : Type :=
| KeyError (k : UID)               (* node.store[k] on an absent key *)
| AttributeError                   (* attribute read on None *)
| ValueError                       (* line 145 *)
| TypeError                        (* calling None *)
| ResolutionError (path : string)  (* node.lib_ast(path) finds nothing *)
| IdException                      (* line 195 *)
| CalleeError (code : Z).          (* the invoked callable raised *)

Inductive outcome (A : Type) : Type :=
| Returns (a : A)
| Raises (e : exn).
Arguments Returns {A} a.
Arguments Raises {A} e.

(** State that survives an exception, as in Python. *)
Definition M (A : Type) : Type := world -> outcome A * world.

#[global] Instance M_ret : MRet M := fun A a w => (Returns a, w).
#[global] Instance M_bind : MBind M := fun A B f m w =>
  match m w with
  | (Returns a, w') => f a w'
  | (Raises e, w') => (Raises e, w')
  end.

Definition raise {A} (e : exn) : M A := fun w => (Raises e, w).
Definition lift {A} (o : outcome A) : M A := fun w => (o, w).
Definition emit (ev : log_event) : M unit :=
  fun w => (Returns tt, World (store w) (heap w) (log w ++ [ev])).

(** [node.store.get_object(key=k)]: the held object, or None. *)
Definition get_object (w : world) (k : UID) : option (loc * StorableObject.t) :=
  l ← store w !! k; o ← heap w !! l; Some (l, o).

(** [node.store[k]]: the held object, or KeyError. *)
Definition getitem (w : world) (k : UID) : outcome (loc * StorableObject.t) :=
  match get_object w k with
  | Some lo => Returns lo
  | None => Raises (KeyError k)
  end.

(** [node.store[k] = obj]. *)
Definition setitem (k : UID) (l : loc) : M unit :=
  fun w => (Returns tt, World (<[k := l]> (store w)) (heap w) (log w)).

(** Attribute writes on a held object. *)
Definition update (l : loc) (f : StorableObject.t -> StorableObject.t) : M unit :=
  fun w => (Returns tt, World (store w) (alter f l (heap w)) (log w)).

(** [StorableObject(id=.., data=.., read_permissions=..)]: a new object. *)
Definition allocate (o : StorableObject.t) : M loc :=
  fun w => let l := fresh (dom (heap w)) in
           (Returns l, World (store w) (<[l := o]> (heap w)) (log w)).

(** ** Callables

    What [node.lib_ast(path)] hands back.  [fn_id] is Python's [id(method)].
    A callable is invoked in two shapes: on payloads alone ([fn_call]), or,
    for a plan, with the node itself ([fn_plan]), in which case it may
    re-enter the executor and leave the node in any state. *)
Record callable : Type := Callable {
  fn_id : N;
  fn_call : list pyval -> list (string * pyval) -> outcome pyval;
  fn_plan : pyval -> VerifyKey -> list Pointer.t -> list (string * pyval) ->
            M pyval
}.

(** ** The action *)

Record Action : Type := MkAction {
  path : string;
  _self : option Pointer.t;
  args : list Pointer.t;
  kwargs : list (string * Pointer.t);     (* a dict, in insertion order *)
  id_at_location : UID;
  is_static : bool;
  address : Address;
  msg_id : UID                            (* [self.id] of the message *)
}.

(** [__init__] (lines 50-69).  [generated] is the identifier the message
    base class draws when [msg_id] is None. *)
Definition RunClassMethodAction (generated : UID)
    (path : string) (_self : option Pointer.t) (args : list Pointer.t)
    (kwargs : list (string * Pointer.t)) (id_at_location : UID)
    (address : Address) (msg_id : option UID) (is_static : bool) : Action :=
  MkAction path _self args kwargs id_at_location is_static address
           (default generated msg_id).

(** ** Strings: startswith, endswith, split *)

Definition startswith (s p : string) : bool := String.prefix p s.

Definition endswith (s suffix : string) : bool :=
  let n := String.length s in
  let m := String.length suffix in
  (m <=? n)%nat && String.eqb (String.substring (n - m) m s) suffix.

(** [s.split(".")] for a one-character separator: never empty. *)
Fixpoint split (sep : ascii) (s : string) : list string :=
  match s with
  | EmptyString => [EmptyString]
  | String c s' =>
      if Ascii.eqb c sep then EmptyString :: split sep s'
      else match split sep s' with
           | piece :: pieces => String c piece :: pieces
           | [] => [String c EmptyString]
           end
  end.

(** [path.split(".")[-1]] *)
Definition method_name_of (path : string) : string :=
  List.last (split "." path) EmptyString.

(** ** execute_action, lines 90-100: the mutation classifier *)

Definition mutating_internal (path : string) : bool :=
  if startswith path "torch.Tensor"
     && endswith path "_"
     && negb (endswith path "__call__")
  then true
  else if negb (startswith path "torch.Tensor") && endswith path "__call__"
  then true
  else false.

(** ** External collaborators

    Modelled from the spec: none of these is part of the sources.
    - [lib_ast] is [node.lib_ast], the capability table; a path it does not
      know is a fatal resolution failure.
    - [upcast] is [lib.python.util.upcast_args_and_kwargs], applied to each
      positional and each named payload, shape preserved.
    - [getattr] is Python's [getattr(obj, name, None)] on a payload.
    - [inherit_tags] is [syft.util.inherit_tags]; it only rewrites the tags
      of the result it is given. *)
Record Collaborators : Type := MkCollaborators {
  lib_ast : string -> option callable;
  upcast : pyval -> pyval;
  getattr : pyval -> string -> option callable;
  inherit_tags : string -> StorableObject.t -> option StorableObject.t ->
                 list StorableObject.t -> list (string * StorableObject.t) ->
                 list string
}.

Definition ask : M world := fun w => (Returns w, w).

(** ** execute_action (lines 87-215) *)

(** Line 88. *)
Definition resolve_method (env : Collaborators) (path : string) : M callable :=
  match lib_ast env path with
  | Some method => mret method
  | None => raise (ResolutionError path)
  end.

(** Lines 102-114: either the early [return] of line 111, or the receiver
    (None when static) with the seed of [result_read_permissions]. *)
Inductive receiver_step : Type :=
| SoftAbort
| Seeded (resolved_self : option loc) (result_read_permissions : AccessSet).

Definition resolve_self (a : Action) : M receiver_step :=
  if is_static a then mret (Seeded None ∅)
  else
    match _self a with
    | None => raise AttributeError
    | Some p =>
        w ← ask;
        match get_object w (Pointer.id_at_location p) with
        | None =>
            emit (Critical (path a) (Pointer.id_at_location p));;
            mret SoftAbort
        | Some (l, resolved_self) =>
            mret (Seeded (Some l)
                    (StorableObject.read_permissions resolved_self))
        end
    end.

(** Lines 116-124: the loop over [self.args], on the store as it stands. *)
Fixpoint resolve_args (w : world) (args : list Pointer.t)
    (result_read_permissions : AccessSet)
    (resolved_args : list pyval) (tag_args : list loc)
    : outcome (AccessSet * list pyval * list loc) :=
  match args with
  | [] => Returns (result_read_permissions, resolved_args, tag_args)
  | arg :: rest =>
      match getitem w (Pointer.id_at_location arg) with
      | Raises e => Raises e
      | Returns (l, r_arg) =>
          resolve_args w rest
            (intersect_keys result_read_permissions
               (StorableObject.read_permissions r_arg))
            (resolved_args ++ [StorableObject.data r_arg])
            (tag_args ++ [l])
      end
  end.

(** Lines 126-134: the loop over [self.kwargs.items()]. *)
Fixpoint resolve_kwargs (w : world) (kwargs : list (string * Pointer.t))
    (result_read_permissions : AccessSet)
    (resolved_kwargs : list (string * pyval)) (tag_kwargs : list (string * loc))
    : outcome (AccessSet * list (string * pyval) * list (string * loc)) :=
  match kwargs with
  | [] => Returns (result_read_permissions, resolved_kwargs, tag_kwargs)
  | (arg_name, arg) :: rest =>
      match getitem w (Pointer.id_at_location arg) with
      | Raises e => Raises e
      | Returns (l, r_arg) =>
          resolve_kwargs w rest
            (intersect_keys result_read_permissions
               (StorableObject.read_permissions r_arg))
            (resolved_kwargs ++ [(arg_name, StorableObject.data r_arg)])
            (tag_kwargs ++ [(arg_name, l)])
      end
  end.

(** Lines 141-174: the three call shapes. *)
Definition invoke (env : Collaborators) (a : Action) (method : callable)
    (verify_key : VerifyKey) (resolved_self : option loc)
    (upcasted_args : list pyval) (upcasted_kwargs : list (string * pyval))
    : M pyval :=
  if is_static a then lift (fn_call method upcasted_args upcasted_kwargs)
  else
    w ← ask;
    match resolved_self ≫= (heap w !!.) with
    | None => raise ValueError
    | Some self_obj =>
        let self_data := StorableObject.data self_obj in
        let method_name := method_name_of (path a) in
        if is_Plan self_data && String.eqb method_name "__call__" then
          fn_plan method self_data verify_key (args a) upcasted_kwargs
        else
          match getattr env self_data method_name with
          | None =>
              (* id(None) != id(method): warn, then call None *)
              emit (Warning method_name);;
              raise TypeError
          | Some target_method =>
              if negb (N.eqb (fn_id target_method) (fn_id method)) then
                emit (Warning method_name);;
                lift (fn_call target_method upcasted_args upcasted_kwargs)
              else
                lift (fn_call method (self_data :: upcasted_args)
                        upcasted_kwargs)
          end
    end.

(** Lines 176-195: wrap a primitive, or force the identity slot. *)
Definition assign_identity (dest : UID) (result : pyval) : M pyval :=
  match result with
  | Primitive v => mret (SyPrimitive v dest)
  | SyPrimitive v _ => mret (SyPrimitive v dest)
  | Object p NoId v => mret result
  | Object p (IdAttr _) v => mret (Object p (IdAttr dest) v)
  | Object p (IdBacked _) v => mret (Object p (IdBacked dest) v)
  | Object p (IdReadOnly _) v => raise IdException
  | Object p (IdDetached i _) v =>
      if N.eqb i dest then mret (Object p (IdDetached i dest) v)
      else raise IdException
  | Stored l => update l (StorableObject.set_id dest);; mret result
  end.

(** Lines 197-199. *)
Definition propagate_to_receiver (mutating_internal : bool)
    (resolved_self : option loc) (result_read_permissions : AccessSet)
    : M unit :=
  if mutating_internal then
    match resolved_self with
    | Some l =>
        update l (StorableObject.set_read_permissions result_read_permissions)
    | None => mret tt
    end
  else mret tt.

(** Lines 200-205. *)
Definition wrap_result (dest : UID) (result : pyval)
    (result_read_permissions : AccessSet) : M loc :=
  match result with
  | Stored l => mret l
  | _ => allocate (StorableObject.Make dest result result_read_permissions [])
  end.

(** Lines 207-213. *)
Definition tag_result (env : Collaborators) (path : string) (result : loc)
    (resolved_self : option loc) (tag_args : list loc)
    (tag_kwargs : list (string * loc)) : M unit :=
  w ← ask;
  match heap w !! result with
  | None => mret tt
  | Some result_obj =>
      let self_obj := resolved_self ≫= (heap w !!.) in
      let arg_objs := omap (heap w !!.) tag_args in
      let kwarg_objs :=
        omap (fun '(n, l) => pair n <$> heap w !! l) tag_kwargs in
      update result
        (StorableObject.set_tags
           (inherit_tags env path result_obj self_obj arg_objs kwarg_objs))
  end.

(** Lines 197-215: everything after the identity has been settled. *)
Definition commit (env : Collaborators) (a : Action) (mutating : bool)
    (resolved_self : option loc) (result_read_permissions : AccessSet)
    (tag_args : list loc) (tag_kwargs : list (string * loc))
    (result : pyval) : M unit :=
  propagate_to_receiver mutating resolved_self result_read_permissions;;
  wrapped ← wrap_result (id_at_location a) result result_read_permissions;
  tag_result env (path a) wrapped resolved_self tag_args tag_kwargs;;
  setitem (id_at_location a) wrapped.

(** The locals that are live at line 176. *)
Record call_frame : Type := Frame {
  resolved_self : option loc;
  result_read_permissions : AccessSet;
  tag_args : list loc;
  tag_kwargs : list (string * loc);
  result : pyval
}.

(** Lines 88-174: resolve, fold the permissions, invoke.  [None] is the
    early [return] of line 111. *)
Definition run_call (env : Collaborators) (a : Action)
    (verify_key : VerifyKey) : M (option call_frame) :=
  method ← resolve_method env (path a);
  step ← resolve_self a;
  match step with
  | SoftAbort => mret None
  | Seeded resolved_self seed =>
      w ← ask;
      '(perms_args, resolved_args, tag_args) ←
        lift (resolve_args w (args a) seed [] []);
      '(result_read_permissions, resolved_kwargs, tag_kwargs) ←
        lift (resolve_kwargs w (kwargs a) perms_args [] []);
      let upcasted_args := upcast env <$> resolved_args in
      let upcasted_kwargs := prod_map id (upcast env) <$> resolved_kwargs in
      result ← invoke env a method verify_key resolved_self
                 upcasted_args upcasted_kwargs;
      mret (Some (Frame resolved_self result_read_permissions
                    tag_args tag_kwargs result))
  end.

Definition execute_action (env : Collaborators) (a : Action)
    (verify_key : VerifyKey) : M unit :=
  frame ← run_call env a verify_key;
  match frame with
  | None => mret tt
  | Some fr =>
      let mutating := mutating_internal (path a) in
      result ← assign_identity (id_at_location a) (result fr);
      commit env a mutating (resolved_self fr) (result_read_permissions fr)
             (tag_args fr) (tag_kwargs fr) result
  end.

(** ** Vocabulary for the statements *)

(** Every pointer of the list names an object the store holds. *)
Definition lookup_all (w : world) (ptrs : list Pointer.t)
    : option (list (loc * StorableObject.t)) :=
  mapM (fun p => get_object w (Pointer.id_at_location p)) ptrs.

Definition access_sets (objs : list (loc * StorableObject.t))
    : list AccessSet :=
  (fun lo => StorableObject.read_permissions lo.2) <$> objs.

(** The permission fold in the words of the specification: intersect,
    left to right, from the seed through the positional and then the named
    arguments. *)
Definition folded_access_set (seed : AccessSet)
    (positional named : list AccessSet) : AccessSet :=
  foldl intersect_keys seed (positional ++ named).

(** The Access Set of the object an identifier holds. *)
Definition access_set_at (w : world) (k : UID) : option AccessSet :=
  (fun lo => StorableObject.read_permissions lo.2) <$> get_object w k.

(** The seed of the fold: empty for a static call, the receiver's Access
    Set otherwise. *)
Definition seed_of (a : Action) (w : world) : option AccessSet :=
  if is_static a then Some ∅
  else p ← _self a; access_set_at w (Pointer.id_at_location p).

(** The call shape of lines 155-162, which is handed the node. *)
Definition plan_shaped (a : Action) (self_obj : StorableObject.t) : bool :=
  is_Plan (StorableObject.data self_obj)
  && String.eqb (method_name_of (path a)) "__call__".

Definition is_Stored (v : pyval) : bool :=
  match v with Stored _ => true | _ => false end.

(** The result takes the destination identifier without complaint. *)
Definition accepts_identity (dest : UID) (v : pyval) : bool :=
  match v with
  | Object _ (IdReadOnly _) _ => false
  | Object _ (IdDetached i _) _ => N.eqb i dest
  | _ => true
  end.

(** The Access Set of an object, by identity. *)
Definition access_set_of (w : world) (l : loc) : option AccessSet :=
  StorableObject.read_permissions <$> heap w !! l.

(** The receiver object: none for a static call. *)
Definition receiver_of (a : Action) (w : world) : option loc :=
  if is_static a then None
  else p ← _self a; fst <$> get_object w (Pointer.id_at_location p).

(** The payloads of resolved objects, in order. *)
Definition payloads (objs : list (loc * StorableObject.t)) : list pyval :=
  (fun lo => StorableObject.data lo.2) <$> objs.

(** Values filed under the names of the named arguments, in order. *)
Definition named {A B : Type} (kw : list (string * A)) (vals : list B)
    : list (string * B) :=
  zip kw.*1 vals.

(** ** Wire mapping (lines 217-266) *)

(** A serialized value. *)
Definition blob : Type := list N.

(** The generic [serialize] / [_deserialize] pair, an interface every
    nested type brings with it; [_deserialize] may reject a blob. *)
Class Serializable (A : Type) : Type := {
  serialize : A -> blob;
  _deserialize : blob -> option A
}.

(** Round-trip fidelity of a nested type. *)
Class Lossless (A : Type) `{Serializable A} : Prop :=
  deserialize_serialize : forall x : A, _deserialize (serialize x) = Some x.

Record RunClassMethodAction_PB : Type := MkProto {
  pb_path : string;
  pb__self : blob;
  pb_args : list blob;
  pb_kwargs : list (string * blob);
  pb_id_at_location : blob;
  pb_address : blob;
  pb_msg_id : blob
}.

Section Wire.
Context `{Serializable (option Pointer.t)} `{Serializable Pointer.t}
        `{Serializable UID} `{Serializable Address}.

Definition _object2proto (a : Action) : RunClassMethodAction_PB :=
  MkProto (path a)
          (serialize (_self a))
          (serialize <$> args a)
          (prod_map id serialize <$> kwargs a)
          (serialize (id_at_location a))
          (serialize (address a))
          (serialize (msg_id a)).

(** [is_static] is not passed to the constructor: it takes its default,
    False. *)
Definition _proto2object (generated : UID) (proto : RunClassMethodAction_PB)
    : option Action :=
  self ← _deserialize (pb__self proto);
  args ← mapM _deserialize (pb_args proto);
  kwargs ← mapM (fun '(k, v) => pair k <$> _deserialize v) (pb_kwargs proto);
  id_at_location ← _deserialize (pb_id_at_location proto);
  address ← _deserialize (pb_address proto);
  msg_id ← _deserialize (pb_msg_id proto);
  Some (RunClassMethodAction generated (pb_path proto) self args kwargs
          id_at_location address (Some msg_id) false).
End Wire.

(** The action with its static flag cleared, every other field kept. *)
Definition clear_is_static (a : Action) : Action :=
  MkAction (path a) (_self a) (args a) (kwargs a) (id_at_location a) false
           (address a) (msg_id a).

(** A small concrete codec, used to run the wire mapping on examples. *)
Module Codec.
#[export] Instance uid_codec : Serializable UID := {|
  serialize u := [u];
  _deserialize b := match b with [u] => Some u | _ => None end
|}.
#[export] Instance address_codec : Serializable Address := {|
  serialize a := match a with MkAddress route => route end;
  _deserialize b := Some (MkAddress b)
|}.
#[export] Instance pointer_codec : Serializable Pointer.t := {|
  serialize p :=
    Pointer.id_at_location p ::
    match Pointer.location p with
    | None => [0%N]
    | Some (MkAddress route) => 1%N :: route
    end;
  _deserialize b :=
    match b with
    | [i; 0%N] => Some (Pointer.Make i None)
    | i :: 1%N :: route => Some (Pointer.Make i (Some (MkAddress route)))
    | _ => None
    end
|}.
#[export] Instance receiver_codec : Serializable (option Pointer.t) := {|
  serialize o := match o with None => [] | Some p => serialize p end;
  _deserialize b :=
    match b with [] => Some None | _ => Some <$> _deserialize b end
|}.
End Codec.

(** ** remap_input (lines 288-296) *)

Definition same_id (p q : Pointer.t) : bool :=
  N.eqb (Pointer.id_at_location p) (Pointer.id_at_location q).

(** One turn of the loop of lines 293-295, on the list as it stands. *)
Definition remap_step (current_input new_input : Pointer.t)
    (args : list Pointer.t) (i : nat) : list Pointer.t :=
  match args !! i with
  | Some arg => if same_id arg current_input then <[i := new_input]> args
                else args
  | None => args
  end.

Definition remap_args (current_input new_input : Pointer.t)
    (args : list Pointer.t) : list Pointer.t :=
  foldl (remap_step current_input new_input) args (seq 0 (length args)).

Definition remap_input (a : Action) (current_input new_input : Pointer.t)
    : outcome Action :=
  match _self a with
  | None => Raises AttributeError
  | Some receiver =>
      if same_id receiver current_input then
        Returns (MkAction (path a) (Some new_input) (args a) (kwargs a)
                   (id_at_location a) (is_static a) (address a) (msg_id a))
      else
        Returns (MkAction (path a) (_self a)
                   (remap_args current_input new_input (args a)) (kwargs a)
                   (id_at_location a) (is_static a) (address a) (msg_id a))
  end.

(** What the specification asks of the scan: only the first match. *)
Fixpoint replace_first (current_input new_input : Pointer.t)
    (args : list Pointer.t) : list Pointer.t :=
  match args with
  | [] => []
  | arg :: rest =>
      if same_id arg current_input then new_input :: rest
      else arg :: replace_first current_input new_input rest
  end.

(** Every match replaced, position by position. *)
Definition replace_all (current_input new_input : Pointer.t)
    (args : list Pointer.t) : list Pointer.t :=
  (fun arg => if same_id arg current_input then new_input else arg) <$> args.

(** ** pprint (lines 83-85) *)

Definition pprint (a : Action) : string :=
  ("RunClassMethodAction(" ++ path a ++ ")")%string.

(** ** More vocabulary *)

(** The store does not hold what the pointer names. *)
Definition absent (w : world) (p : Pointer.t) : bool :=
  match get_object w (Pointer.id_at_location p) with
  | None => true
  | Some _ => false
  end.

(** The identifier of the first pointer, in order, that the store does not
    hold. *)
Definition first_absent (w : world) (ptrs : list Pointer.t) : option UID :=
  Pointer.id_at_location <$> List.find (absent w) ptrs.

(** The character occurs in the string. *)
Fixpoint occurs (c : ascii) (s : string) : bool :=
  match s with
  | EmptyString => false
  | String d s' => Ascii.eqb d c || occurs c s'
  end.

(** The identifier and the payload of an object, by identity. *)
Definition id_of (w : world) (l : loc) : option UID :=
  StorableObject.id <$> heap w !! l.
Definition data_of (w : world) (l : loc) : option pyval :=
  StorableObject.data <$> heap w !! l.

(** Identifier and payload agree. *)
Definition same_core (o o' : StorableObject.t) : Prop :=
  StorableObject.id o' = StorableObject.id o /\
  StorableObject.data o' = StorableObject.data o.

(** ** The object action services
    ([syft/core/nodes/common/service/obj_action_service.py])

    Each service advertises the message classes it handles
    ([message_handler_types], lines 21-24, 32-35, 46-49). *)
Module Service.
Inductive message_type : Type :=
| ImmediateActionWithoutReply
| EventualActionWithoutReply
| ImmediateActionWithReply.

Inductive t : Type :=
| ImmediateObjectActionServiceWithoutReply
| EventualObjectActionServiceWithoutReply
| ImmediateObjectActionServiceWithReply.

Definition message_handler_types (s : t) : list message_type :=
  match s with
  | ImmediateObjectActionServiceWithoutReply => [ImmediateActionWithoutReply]
  | EventualObjectActionServiceWithoutReply => [EventualActionWithoutReply]
  | ImmediateObjectActionServiceWithReply => [ImmediateActionWithReply]
  end.
End Service.

(** * Scenarios

    Concrete stores, actions and collaborators on which the definitions
    are run. *)
Module Scenario.
Definition P1 : VerifyKey := 1%N.
Definition P2 : VerifyKey := 2%N.

Definition ptr (i : UID) : Pointer.t := Pointer.Make i None.
Definition here : Address := MkAddress [7%N].

(** Remapping [x] to [y] in an action that names [x] twice. *)
Definition x : Pointer.t := ptr 11%N.
Definition y : Pointer.t := ptr 12%N.
Definition z : Pointer.t := ptr 13%N.
Definition twice : Action :=
  MkAction "torch.Tensor.add" (Some z) [x; z; x] [] 50%N false here 1%N.
Definition no_receiver : Action :=
  MkAction "torch.zeros" None [x; z] [] 50%N true here 1%N.

(** A node holding three objects: [101] readable by [P1], [102] and
    [103] readable by [P1] and [P2]. *)
Definition o101 : StorableObject.t :=
  StorableObject.Make 101%N (Primitive 5) {[P1 := 10%N]} [].
Definition o102 : StorableObject.t :=
  StorableObject.Make 102%N (Primitive 6)
    (<[P1 := 11%N]> {[P2 := 12%N]}) [].
Definition o103 : StorableObject.t :=
  StorableObject.Make 103%N (Object false (IdBacked 103%N) 7)
    (<[P1 := 13%N]> {[P2 := 14%N]}) [].
Definition node : world :=
  World (<[101%N := 1%positive]>
           (<[102%N := 2%positive]> {[103%N := 3%positive]}))
        (<[1%positive := o101]>
           (<[2%positive := o102]> {[3%positive := o103]}))
        [].

(** The capability table: callables that compute a fresh value, and
    callables that hand back the Stored Object held at [2]. *)
Definition no_plan : pyval -> VerifyKey -> list Pointer.t ->
                     list (string * pyval) -> M pyval :=
  fun _ _ _ _ => raise TypeError.
Definition fresh_value : callable :=
  Callable 1 (fun _ _ => Returns (Primitive 0)) no_plan.
Definition held_object : callable :=
  Callable 2 (fun _ _ => Returns (Stored 2%positive)) no_plan.
Definition table : list (string * callable) :=
  [("torch.zeros", fresh_value);
   ("torch.Tensor.add", fresh_value);
   ("torch.Tensor.add_", fresh_value);
   ("syft.lib.held", held_object);
   ("torch.Tensor.held_", held_object)].
Definition env : Collaborators :=
  MkCollaborators
    (fun path => snd <$> List.find (fun e => String.eqb e.1 path) table)
    (fun v => v)
    (fun _ name =>
       snd <$> List.find
                 (fun e => String.eqb (method_name_of e.1) name) table)
    (fun _ result _ _ _ => StorableObject.tags result).

Definition dest : UID := 200%N.
Definition caller : VerifyKey := P1.

(** A static call on [101] and [102]. *)
Definition static_call : Action :=
  MkAction "torch.zeros" None [ptr 101%N; ptr 102%N] [] dest true here 1%N.
(** A static call whose callable hands back a held object. *)
Definition static_held : Action :=
  MkAction "syft.lib.held" None [ptr 101%N; ptr 102%N] [] dest true here
           1%N.
(** A mutating call on receiver [103] with argument [101]. *)
Definition mutating_call : Action :=
  MkAction "torch.Tensor.add_" (Some (ptr 103%N)) [ptr 101%N] [] dest false
           here 1%N.
(** The same, with a callable that hands back a held object. *)
Definition mutating_held : Action :=
  MkAction "torch.Tensor.held_" (Some (ptr 103%N)) [ptr 101%N] [] dest
           false here 1%N.
(** A call on a receiver the node does not hold. *)
Definition absent_receiver : Action :=
  MkAction "torch.Tensor.add" (Some (ptr 999%N)) [ptr 101%N] [] dest false
           here 1%N.
(** The same under a path the capability table does not know. *)
Definition unknown_path : Action :=
  MkAction "nowhere.method" (Some (ptr 999%N)) [ptr 101%N] [] dest false
           here 1%N.
(** A static call with an argument the node does not hold. *)
Definition absent_argument : Action :=
  MkAction "torch.zeros" None [ptr 101%N; ptr 998%N] [] dest true here 1%N.
(** Receiver and argument both absent. *)
Definition absent_both : Action :=
  MkAction "torch.Tensor.add" (Some (ptr 999%N)) [ptr 998%N] [] dest false
           here 1%N.
End Scenario.

(** More collaborators and actions: a callable that raises, and one whose
    result has a read-only identity. *)
Module Cases.
Definition failing : callable :=
  Callable 3 (fun _ _ => Raises (CalleeError 1)) Scenario.no_plan.
Definition frozen : callable :=
  Callable 4 (fun _ _ => Returns (Object false (IdReadOnly 5%N) 0))
           Scenario.no_plan.
Definition table : list (string * callable) :=
  [("torch.fail", failing); ("torch.frozen", frozen)] ++ Scenario.table.
Definition env : Collaborators :=
  MkCollaborators
    (fun path => snd <$> List.find (fun e => String.eqb e.1 path) table)
    (fun v => v)
    (fun _ name =>
       snd <$> List.find
                 (fun e => String.eqb (method_name_of e.1) name) table)
    (fun _ result _ _ _ => StorableObject.tags result).
Definition static_failing : Action :=
  MkAction "torch.fail" None [Scenario.ptr 101%N] [] Scenario.dest true
           Scenario.here 1%N.
End Cases.

(** A plan held by the node, whose call re-enters the executor: it runs one
    action, a mutating call on the plan object itself, and returns. *)
Module PlanCase.
Definition o104 : StorableObject.t :=
  StorableObject.Make 104%N (Object true (IdBacked 104%N) 8)
    (<[Scenario.P1 := 15%N]> {[Scenario.P2 := 16%N]}) [].
Definition node : world :=
  World (<[104%N := 4%positive]> (store Scenario.node))
        (<[4%positive := o104]> (heap Scenario.node))
        [].
Definition inner : Action :=
  MkAction "torch.Tensor.add_" (Some (Scenario.ptr 104%N))
           [Scenario.ptr 101%N] [] 201%N false Scenario.here 2%N.
Definition running_plan : callable :=
  Callable 5
    (fun _ _ => Raises TypeError)
    (fun _ verify_key _ _ =>
       execute_action Scenario.env inner verify_key;; mret (Primitive 0)).
Definition env : Collaborators :=
  MkCollaborators
    (fun path => if String.eqb path "torch.Tensor.__call__"
                 then Some running_plan else lib_ast Scenario.env path)
    (fun v => v)
    (getattr Scenario.env)
    (fun _ result _ _ _ => StorableObject.tags result).
Definition outer : Action :=
  MkAction "torch.Tensor.__call__" (Some (Scenario.ptr 104%N)) [] []
           Scenario.dest false Scenario.here 3%N.
End PlanCase.

(** * Properties *)

(** ** The permission propagator *)

Lemma intersect_keys_lookup (left right : AccessSet) (k : VerifyKey) :
  intersect_keys left right !! k =
  match right !! k with Some _ => left !! k | None => None end.
Proof.
  unfold intersect_keys.
  destruct (set_to_map _ _ !! k) as [v|] eqn:E.
  - apply lookup_set_to_map in E; [|naive_solver].
    destruct E as (k' & Hin & Heq). injection Heq as -> <-.
    apply elem_of_intersection in Hin as [Hl Hr].
    apply elem_of_dom in Hl as [a Ha]. apply elem_of_dom in Hr as [b Hb].
    rewrite Hb, Ha. by rewrite (lookup_total_correct _ _ _ Ha).
  - destruct (right !! k) as [b|] eqn:Hb; [|done].
    destruct (left !! k) as [a|] eqn:Ha; [|done].
    assert ((set_to_map (fun k => (k, left !!! k))
              (dom left ∩ dom right) : AccessSet) !! k = Some a) as E'.
    { apply lookup_set_to_map; [naive_solver|].
      exists k. split.
      - apply elem_of_intersection; split; apply elem_of_dom; eauto.
      - by rewrite (lookup_total_correct _ _ _ Ha). }
    congruence.
Qed.

(** The dictionary comprehension computes the specification's filter. *)
Lemma intersect_keys_refines (left right : AccessSet) :
  intersect_keys left right = intersect_spec left right.
Proof.
  apply map_eq. intros k. rewrite intersect_keys_lookup. unfold intersect_spec.
  destruct (right !! k) as [b|] eqn:Hb.
  - destruct (left !! k) as [a|] eqn:Ha.
    + symmetry. apply map_lookup_filter_Some. split; [done|]. simpl. eauto.
    + symmetry. apply map_lookup_filter_None. left. done.
  - symmetry. apply map_lookup_filter_None. right. intros a _. simpl.
    rewrite Hb. by intros [? ?].
Qed.

Lemma intersect_keys_dom (left right : AccessSet) :
  dom (intersect_keys left right) = dom left ∩ dom right.
Proof.
  apply set_eq. intros k.
  rewrite elem_of_intersection, !elem_of_dom, intersect_keys_lookup.
  destruct (right !! k) as [b|], (left !! k) as [a|]; split.
  all: first [ by intros [? ?] | by intros [[? ?] [? ?]] | by eauto ].
Qed.

Lemma intersect_keys_empty_l (right : AccessSet) : intersect_keys ∅ right = ∅.
Proof.
  apply map_eq. intros k. rewrite intersect_keys_lookup, !lookup_empty.
  by destruct (right !! k).
Qed.

(** Once empty, the fold stays empty. *)
Lemma foldl_intersect_keys_empty (sets : list AccessSet) :
  foldl intersect_keys ∅ sets = ∅.
Proof.
  induction sets as [|A sets IH]; simpl; [done|].
  by rewrite intersect_keys_empty_l.
Qed.

(** C5: the keys of [intersect_keys A B] are exactly the keys shared by
    [A] and [B], and on every shared key [k] the result carries [A]'s
    marker, whatever [B] holds there. *)
Theorem intersect_keys_membership (A B : AccessSet) (k : VerifyKey) :
  dom (intersect_keys A B) = dom A ∩ dom B /\
  (k ∈ dom A ∩ dom B ->
     is_Some (A !! k) /\ intersect_keys A B !! k = A !! k).
Proof.
  split; [apply intersect_keys_dom|].
  intros Hk. apply elem_of_intersection in Hk as [Ha Hb].
  apply elem_of_dom in Hb as [b Hb].
  split; [by apply elem_of_dom|]. by rewrite intersect_keys_lookup, Hb.
Qed.

Lemma intersect_keys_membership_witness :
  intersect_keys (<[Scenario.P1 := 13%N]> {[Scenario.P2 := 14%N]})
    {[Scenario.P1 := 10%N]} !! Scenario.P1
  = Some 13%N.
Proof.
  destruct (intersect_keys_membership
              (<[Scenario.P1 := 13%N]> {[Scenario.P2 := 14%N]})
              {[Scenario.P1 := 10%N]} Scenario.P1) as [_ Hshared].
  destruct Hshared as [_ Hmarker].
  - apply elem_of_intersection. split; apply elem_of_dom; by eexists.
  - etrans; [exact Hmarker|]. reflexivity.
Defined.

(** ** Strings *)

Lemma append_String (c : ascii) (t u : string) :
  (String c t ++ u)%string = String c (t ++ u)%string.
Proof. reflexivity. Qed.

Lemma append_empty_l (u : string) : ("" ++ u)%string = u.
Proof. reflexivity. Qed.

Lemma startswith_iff (s p : string) :
  startswith s p = true <-> exists t, s = (p ++ t)%string.
Proof.
  unfold startswith. revert s.
  induction p as [|c p IH]; intros s; simpl.
  - destruct s; split; eauto.
  - destruct s as [|d s]; simpl.
    + split; [done|]. by intros [t Ht].
    + destruct (ascii_dec c d) as [->|Hne].
      * rewrite IH. split; intros [t Ht]; exists t.
        -- by rewrite Ht.
        -- by injection Ht.
      * split; [done|]. intros [t Ht]. injection Ht as Hcd _. by symmetry in Hcd.
Qed.

Lemma substring_all (s : string) : substring 0 (String.length s) s = s.
Proof. induction s as [|c s IH]; simpl; [done|by rewrite IH]. Qed.

Lemma substring_append_r (t suffix : string) :
  substring (String.length t) (String.length suffix) (t ++ suffix) = suffix.
Proof. induction t; simpl; [apply substring_all|done]. Qed.

Lemma string_length_append (t u : string) :
  String.length (t ++ u) = String.length t + String.length u.
Proof. induction t as [|c t IH]; simpl; [done|by rewrite IH]. Qed.

Lemma substring_cut (s : string) (n : nat) :
  n <= String.length s ->
  s = (substring 0 n s ++ substring n (String.length s - n) s)%string.
Proof.
  revert n. induction s as [|c s IH]; intros [|n] Hn; simpl in *; try lia.
  - done.
  - by rewrite append_empty_l, substring_all.
  - rewrite append_String. f_equal. apply IH. lia.
Qed.

Lemma endswith_iff (s suffix : string) :
  endswith s suffix = true <-> exists t, s = (t ++ suffix)%string.
Proof.
  unfold endswith. rewrite andb_true_iff, Nat.leb_le, String.eqb_eq. split.
  - intros [Hle Hsub].
    exists (substring 0 (String.length s - String.length suffix) s).
    pose proof (substring_cut s (String.length s - String.length suffix))
      as Hcut.
    replace (String.length s - (String.length s - String.length suffix))
      with (String.length suffix) in Hcut by lia.
    rewrite Hsub in Hcut. apply Hcut. lia.
  - intros [t ->]. rewrite string_length_append. split; [lia|].
    replace (String.length t + String.length suffix - String.length suffix)
      with (String.length t) by lia.
    apply substring_append_r.
Qed.

Lemma endswith_false_iff (s suffix : string) :
  endswith s suffix = false <-> ~ exists t, s = (t ++ suffix)%string.
Proof. rewrite <- endswith_iff. by destruct (endswith s suffix). Qed.

Lemma startswith_false_iff (s p : string) :
  startswith s p = false <-> ~ exists t, s = (p ++ t)%string.
Proof. rewrite <- startswith_iff. by destruct (startswith s p). Qed.

(** ** Path strings *)

Lemma split_nonempty (sep : ascii) (s : string) : split sep s <> [].
Proof.
  destruct s as [|c s]; simpl; [done|].
  destruct (Ascii.eqb c sep); [done|]. by destruct (split sep s).
Qed.

Lemma concat_cons_cons (sep x y : string) (rest : list string) :
  String.concat sep (x :: y :: rest)
  = (x ++ sep ++ String.concat sep (y :: rest))%string.
Proof. reflexivity. Qed.

Lemma concat_split (sep : ascii) (s : string) :
  String.concat (String sep EmptyString) (split sep s) = s.
Proof.
  induction s as [|c s IH]; simpl; [done|].
  destruct (Ascii.eqb c sep) eqn:Hc.
  - apply Ascii.eqb_eq in Hc as ->.
    destruct (split sep s) as [|piece pieces] eqn:Hs.
    + by apply split_nonempty in Hs.
    + rewrite concat_cons_cons, IH. reflexivity.
  - destruct (split sep s) as [|piece pieces] eqn:Hs.
    + by apply split_nonempty in Hs.
    + destruct pieces as [|piece' pieces].
      * simpl in *. by rewrite IH.
      * rewrite concat_cons_cons in *. rewrite append_String. by rewrite IH.
Qed.

(** X5: joining the pieces of [split] with the separator gives the string
    back: [".".join(path.split("."))] is [path]. *)
Theorem split_join (sep : ascii) (s : string) :
  String.concat (String sep EmptyString) (split sep s) = s.
Proof. apply concat_split. Qed.

Lemma split_no_sep (sep : ascii) (s : string) :
  occurs sep s = false -> split sep s = [s].
Proof.
  induction s as [|c s IH]; simpl; [done|].
  intros Hocc. apply orb_false_iff in Hocc as [Hc Hs].
  rewrite Hc, (IH Hs). done.
Qed.

Lemma split_append (sep : ascii) (p m : string) :
  exists piece pieces,
    split sep (p ++ String sep m)%string = (piece :: pieces) ++ split sep m.
Proof.
  induction p as [|c p (piece & pieces & IH)].
  - exists EmptyString, []. rewrite append_empty_l. simpl.
    by rewrite Ascii.eqb_refl.
  - rewrite append_String. simpl. rewrite IH.
    destruct (Ascii.eqb c sep).
    + by exists EmptyString, (piece :: pieces).
    + by exists (String c piece), pieces.
Qed.

Lemma last_app_nonempty {A : Type} (l1 l2 : list A) (d : A) :
  l2 <> [] -> List.last (l1 ++ l2) d = List.last l2 d.
Proof.
  intros Hne. induction l1 as [|x l1 IH]; [done|].
  simpl. rewrite IH. destruct (l1 ++ l2) eqn:Happ; [|done].
  apply app_eq_nil in Happ as [_ ->]. done.
Qed.

Lemma last_split_append (sep : ascii) (p m : string) :
  List.last (split sep (p ++ String sep m)%string) EmptyString
  = List.last (split sep m) EmptyString.
Proof.
  destruct (split_append sep p m) as (piece & pieces & ->).
  apply last_app_nonempty, split_nonempty.
Qed.

(** X6: the method name is what follows the last dot: a path made of any
    prefix, a dot, and a dot-free name has that name as its method name,
    and a dot-free path is its own method name. *)
Theorem method_name_of_suffix (prefix name : string) :
  occurs "." name = false ->
  method_name_of (prefix ++ "." ++ name)%string = name /\
  method_name_of name = name.
Proof.
  intros Hname. unfold method_name_of.
  change (prefix ++ "." ++ name)%string with (prefix ++ String "." name)%string.
  rewrite last_split_append, (split_no_sep _ _ Hname). done.
Qed.

Lemma method_name_of_suffix_witness :
  method_name_of "torch.Tensor.add_" = "add_".
Proof.
  apply (proj1 (method_name_of_suffix "torch.Tensor" "add_" eq_refl)).
Defined.

Lemma last_cons_cons {A : Type} (x y : A) (l : list A) (d : A) :
  List.last (x :: y :: l) d = List.last (y :: l) d.
Proof. reflexivity. Qed.

Lemma last_split_spec (sep : ascii) (s : string) :
  occurs sep (List.last (split sep s) EmptyString) = false /\
  exists t, s = (t ++ List.last (split sep s) EmptyString)%string.
Proof.
  induction s as [|c s [IHocc [t IHt]]]; simpl.
  - split; [done|]. by exists EmptyString.
  - destruct (split sep s) as [|piece pieces] eqn:Hs;
      [by apply split_nonempty in Hs|].
    destruct (Ascii.eqb c sep) eqn:Hc.
    + rewrite last_cons_cons. split; [done|].
      exists (String c t). rewrite append_String. by rewrite <- IHt.
    + destruct pieces as [|piece' pieces].
      * simpl in *. rewrite Hc, IHocc. split; [done|].
        exists EmptyString. pose proof (concat_split sep s) as Hjoin.
        rewrite Hs in Hjoin. simpl in Hjoin. by rewrite Hjoin.
      * rewrite last_cons_cons. rewrite last_cons_cons in IHocc, IHt.
        split; [done|].
        exists (String c t). rewrite append_String. by rewrite <- IHt.
Qed.

Lemma method_name_of_endswith (path : string) :
  endswith path (method_name_of path) = true.
Proof.
  destruct (last_split_spec "." path) as [_ Hsuffix]. by apply endswith_iff.
Qed.

(** X7: whatever the path, its method name contains no dot and is a
    suffix of the path. *)
Theorem method_name_of_spec (path : string) :
  occurs "." (method_name_of path) = false /\
  endswith path (method_name_of path) = true.
Proof.
  destruct (last_split_spec "." path) as [Hocc Hsuffix].
  split; [exact Hocc|]. by apply endswith_iff.
Qed.

Lemma list_ascii_of_string_append (s t : string) :
  list_ascii_of_string (s ++ t)%string
  = list_ascii_of_string s ++ list_ascii_of_string t.
Proof.
  induction s as [|c s IH]; [done|].
  rewrite append_String. simpl. by rewrite IH.
Qed.

Lemma list_ascii_of_string_inj (s t : string) :
  list_ascii_of_string s = list_ascii_of_string t -> s = t.
Proof.
  intros Heq. rewrite <- (string_of_list_ascii_of_string s),
    <- (string_of_list_ascii_of_string t). by rewrite Heq.
Qed.

(** X8: [pprint] shows the path and nothing else: two actions print alike
    exactly when their paths are the same. *)
Theorem pprint_determines_path (a b : Action) :
  pprint a = pprint b <-> path a = path b.
Proof.
  unfold pprint. split; [|by intros ->].
  intros Heq. apply (f_equal list_ascii_of_string) in Heq.
  rewrite !list_ascii_of_string_append in Heq.
  apply app_inv_head, app_inv_tail in Heq.
  by apply list_ascii_of_string_inj.
Qed.

(** ** The mutation classifier *)

(** C6: a path is classified as mutating exactly when (a) it starts with
    the tensor prefix and ends with an underscore without ending with the
    call-operator name, or (b) it does not start with the tensor prefix and
    ends with the call-operator name. *)
Theorem mutating_internal_iff (path : string) :
  mutating_internal path = true <->
  ((exists t, path = ("torch.Tensor" ++ t)%string) /\
   (exists t, path = (t ++ "_")%string) /\
   ~ (exists t, path = (t ++ "__call__")%string))
  \/
  (~ (exists t, path = ("torch.Tensor" ++ t)%string) /\
   (exists t, path = (t ++ "__call__")%string)).
Proof.
  rewrite <- !startswith_iff, <- !endswith_iff.
  unfold mutating_internal.
  destruct (startswith path "torch.Tensor"), (endswith path "_"),
    (endswith path "__call__"); simpl; split; try done.
  all: try (intros [(? & ? & ?)|[? ?]]; done).
  all: try (by left; repeat split).
  all: by right; repeat split.
Qed.

(** ** remap_input *)

Lemma remap_step_prefix (current_input new_input : Pointer.t)
    (done todo : list Pointer.t) :
  foldl (remap_step current_input new_input) (done ++ todo)
        (seq (length done) (length todo))
  = done ++ replace_all current_input new_input todo.
Proof.
  revert done. induction todo as [|arg todo IH]; intros done; simpl.
  - done.
  - unfold remap_step at 2. rewrite list_lookup_middle by done.
    specialize (IH (done ++
      [if same_id arg current_input then new_input else arg])).
    rewrite length_app in IH. simpl in IH.
    replace (length done + 1) with (S (length done)) in IH by lia.
    rewrite <- !(assoc_L (++)) in IH. simpl in IH. rewrite <- IH.
    destruct (same_id arg current_input); [|done].
    replace (length done) with (length done + 0) at 1 by lia.
    by rewrite insert_app_r.
Qed.

(** The loop replaces every match; it does not stop at the first. *)
Lemma remap_args_replace_all (current_input new_input : Pointer.t)
    (args : list Pointer.t) :
  remap_args current_input new_input args
  = replace_all current_input new_input args.
Proof. apply (remap_step_prefix current_input new_input []). Qed.

Lemma replace_all_length (current_input new_input : Pointer.t)
    (args : list Pointer.t) :
  length (replace_all current_input new_input args) = length args.
Proof. apply length_fmap. Qed.

Lemma replace_all_no_match (current_input new_input : Pointer.t)
    (args : list Pointer.t) :
  Forall (fun arg => same_id arg current_input = false) args ->
  replace_all current_input new_input args = args.
Proof.
  induction 1 as [|arg args Harg _ IH]; [done|].
  unfold replace_all in *. rewrite fmap_cons. by rewrite Harg, IH.
Qed.

(** C3, as the code has it: on an action that has a receiver reference,
    [remap_input] replaces the receiver when its identifier is the current
    one and leaves everything else alone; otherwise it replaces every
    positional argument with that identifier, position by position, and
    leaves everything else alone; when nothing matches the action is
    unchanged; the number and order of the arguments never change. *)
Theorem remap_input_correct (a : Action) (current_input new_input receiver
    : Pointer.t) :
  _self a = Some receiver ->
  exists a',
    remap_input a current_input new_input = Returns a' /\
    path a' = path a /\ kwargs a' = kwargs a /\
    id_at_location a' = id_at_location a /\ is_static a' = is_static a /\
    address a' = address a /\ msg_id a' = msg_id a /\
    length (args a') = length (args a) /\
    (if same_id receiver current_input
     then _self a' = Some new_input /\ args a' = args a
     else _self a' = _self a /\
          args a' = replace_all current_input new_input (args a) /\
          (Forall (fun arg => same_id arg current_input = false) (args a) ->
           a' = a)).
Proof.
  intros Hself. unfold remap_input. rewrite Hself.
  destruct (same_id receiver current_input) eqn:Hid.
  - eexists. split; [done|]. simpl. by repeat split.
  - eexists. split; [done|]. simpl.
    rewrite remap_args_replace_all, replace_all_length.
    repeat split; try done.
    intros Hno. rewrite replace_all_no_match by done.
    destruct a; simpl in *. by rewrite Hself.
Qed.

Lemma remap_input_correct_witness :
  exists a',
    remap_input Scenario.twice Scenario.x Scenario.y = Returns a' /\
    args a' = [Scenario.y; Scenario.z; Scenario.y].
Proof.
  destruct (remap_input_correct Scenario.twice Scenario.x Scenario.y
              Scenario.z eq_refl)
    as (a' & Hrun & _ & _ & _ & _ & _ & _ & _ & Hargs).
  exists a'. split; [exact Hrun|]. simpl in Hargs.
  destruct Hargs as (_ & Hargs & _). exact Hargs.
Defined.

(** C3 as stated fails: the scan does not stop at the first match.  With
    [x] named at positions 0 and 2, both positions are rewritten, where
    replacing the first match only would leave position 2 alone. *)
Lemma remap_input_first_only_fails :
  remap_input Scenario.twice Scenario.x Scenario.y
  = Returns (MkAction "torch.Tensor.add" (Some Scenario.z)
               [Scenario.y; Scenario.z; Scenario.y] [] 50%N false
               Scenario.here 1%N)
  /\ replace_first Scenario.x Scenario.y (args Scenario.twice)
     = [Scenario.y; Scenario.z; Scenario.x]
  /\ [Scenario.y; Scenario.z; Scenario.y]
     <> replace_first Scenario.x Scenario.y (args Scenario.twice).
Proof. split; [reflexivity|]. split; [reflexivity|]. discriminate. Qed.

(** C10: without a receiver reference [remap_input] raises an attribute
    error, and does so exactly then; it returns an action exactly when the
    receiver reference is present. *)
Theorem remap_input_needs_receiver (a : Action)
    (current_input new_input : Pointer.t) :
  (_self a = None <->
   remap_input a current_input new_input = Raises AttributeError) /\
  (is_Some (_self a) <->
   exists a', remap_input a current_input new_input = Returns a').
Proof.
  unfold remap_input. destruct (_self a) as [receiver|]; split; split.
  all: try done; try (by intros [? ?]); try (by eauto).
  all: destruct (same_id receiver current_input); by eauto.
Qed.

Lemma remap_input_needs_receiver_witness :
  remap_input Scenario.no_receiver Scenario.x Scenario.y
  = Raises AttributeError.
Proof.
  apply (proj1 (proj1 (remap_input_needs_receiver Scenario.no_receiver
                         Scenario.x Scenario.y))).
  reflexivity.
Defined.

(** ** The wire mapping *)

Section WireProperties.
Context `{Serializable (option Pointer.t)} `{Serializable Pointer.t}
        `{Serializable UID} `{Serializable Address}.
Context `{!Lossless (option Pointer.t)} `{!Lossless Pointer.t}
        `{!Lossless UID} `{!Lossless Address}.

Lemma deserialize_args (ptrs : list Pointer.t) :
  mapM _deserialize (serialize <$> ptrs) = Some ptrs.
Proof. apply mapM_fmap_Some. intros p. apply deserialize_serialize. Qed.

Lemma deserialize_kwargs (kw : list (string * Pointer.t)) :
  mapM (fun '(k, v) => pair k <$> _deserialize v)
       (prod_map id serialize <$> kw) = Some kw.
Proof.
  apply mapM_fmap_Some. intros [k p]. simpl.
  by rewrite deserialize_serialize.
Qed.

(** C2, as the code has it: with lossless serializers for the nested
    types, reading back what [_object2proto] wrote gives the original
    action with its static flag reset to False and every other field
    kept (path, receiver, ordered arguments, named arguments, destination
    identifier, address, message id); it gives back the original action
    exactly when that action is not static. *)
Theorem proto_roundtrip (generated : UID) (a : Action) :
  _proto2object generated (_object2proto a) = Some (clear_is_static a) /\
  (_proto2object generated (_object2proto a) = Some a <->
   is_static a = false).
Proof.
  assert (_proto2object generated (_object2proto a)
          = Some (clear_is_static a)) as Hrt.
  { unfold _proto2object, _object2proto. simpl.
    rewrite deserialize_serialize. simpl.
    rewrite deserialize_args. simpl.
    rewrite deserialize_kwargs. simpl.
    by repeat (rewrite deserialize_serialize; simpl). }
  split; [exact Hrt|]. rewrite Hrt. unfold clear_is_static.
  destruct a as [p s ar kw d st ad m]; simpl. split.
  - intros Heq. by injection Heq.
  - by intros ->.
Qed.
End WireProperties.

Section CodecProperties.
Import Codec.

#[local] Instance uid_lossless : Lossless UID.
Proof. by intros u. Qed.

#[local] Instance address_lossless : Lossless Address.
Proof. by intros [route]. Qed.

#[local] Instance pointer_lossless : Lossless Pointer.t.
Proof.
  intros [i [[route]|]]; simpl; [|done].
  by destruct route.
Qed.

#[local] Instance receiver_lossless : Lossless (option Pointer.t).
Proof.
  intros [[i [[[|r route]]|]]|]; done.
Qed.

Lemma proto_roundtrip_witness :
  _proto2object 0%N (_object2proto Scenario.twice) = Some Scenario.twice.
Proof.
  apply (proj2 (proto_roundtrip 0%N Scenario.twice)). reflexivity.
Defined.

(** C2 as stated fails on the static flag: a static action comes back
    non-static. *)
Lemma proto_roundtrip_drops_is_static :
  is_static Scenario.no_receiver = true /\
  (is_static <$> _proto2object 0%N (_object2proto Scenario.no_receiver))
  = Some false /\
  _proto2object 0%N (_object2proto Scenario.no_receiver)
  <> Some Scenario.no_receiver.
Proof. split; [reflexivity|]. split; [reflexivity|]. discriminate. Qed.
End CodecProperties.

(** ** The executor, phase by phase *)

Ltac run_M :=
  unfold mbind, M_bind, mret, M_ret, lift, raise, ask, emit, update,
    setitem, allocate; simpl.

Lemma access_set_at_store (w : world) (k : UID) :
  access_set_at w k = store w !! k ≫= access_set_of w.
Proof.
  unfold access_set_at, access_set_of, get_object.
  destruct (store w !! k) as [l|]; simpl; [|done].
  by destruct (heap w !! l).
Qed.

Lemma get_object_Some (w : world) (k : UID) (l : loc) (o : StorableObject.t) :
  get_object w k = Some (l, o) <-> store w !! k = Some l /\ heap w !! l = Some o.
Proof.
  unfold get_object. destruct (store w !! k) as [l'|]; simpl.
  - destruct (heap w !! l') as [o'|] eqn:Hl'; simpl.
    + split; [by intros [= <- <-]|]. intros [[= <-] Ho]. congruence.
    + split; [done|]. intros [[= <-] Ho]. congruence.
  - split; [done|]. by intros [? _].
Qed.

Lemma get_object_absent (w : world) (k : UID) :
  store w !! k = None -> get_object w k = None.
Proof. unfold get_object. by intros ->. Qed.

(** *** Lines 102-114 *)

Lemma resolve_self_static (a : Action) (w : world) :
  is_static a = true -> resolve_self a w = (Returns (Seeded None ∅), w).
Proof. unfold resolve_self. by intros ->. Qed.

Lemma resolve_self_present (a : Action) (w : world) (p : Pointer.t)
    (l : loc) (o : StorableObject.t) :
  is_static a = false -> _self a = Some p ->
  get_object w (Pointer.id_at_location p) = Some (l, o) ->
  resolve_self a w
  = (Returns (Seeded (Some l) (StorableObject.read_permissions o)), w).
Proof. unfold resolve_self. intros -> -> Hget. run_M. by rewrite Hget. Qed.

Lemma resolve_self_absent (a : Action) (w : world) (p : Pointer.t) :
  is_static a = false -> _self a = Some p ->
  get_object w (Pointer.id_at_location p) = None ->
  resolve_self a w
  = (Returns SoftAbort,
     World (store w) (heap w)
           (log w ++ [Critical (path a) (Pointer.id_at_location p)])).
Proof. unfold resolve_self. intros -> -> Hget. run_M. by rewrite Hget. Qed.

Lemma resolve_self_seeded (a : Action) (w : world) (seed : AccessSet) :
  seed_of a w = Some seed ->
  resolve_self a w = (Returns (Seeded (receiver_of a w) seed), w).
Proof.
  unfold seed_of, receiver_of, access_set_at.
  destruct (is_static a) eqn:Hst.
  - intros [= <-]. by apply resolve_self_static.
  - destruct (_self a) as [p|] eqn:Hp; simpl; [|done].
    destruct (get_object w (Pointer.id_at_location p)) as [[l o]|] eqn:Hget;
      simpl; [|done].
    intros [= <-]. by eapply resolve_self_present.
Qed.

(** *** Lines 116-134 *)

Lemma resolve_args_resolved (w : world) (ptrs : list Pointer.t)
    (objs : list (loc * StorableObject.t)) (perms : AccessSet)
    (resolved : list pyval) (tagged : list loc) :
  lookup_all w ptrs = Some objs ->
  resolve_args w ptrs perms resolved tagged
  = Returns (foldl intersect_keys perms (access_sets objs),
             resolved ++ payloads objs, tagged ++ objs.*1).
Proof.
  unfold lookup_all.
  revert objs perms resolved tagged.
  induction ptrs as [|p ptrs IH]; intros objs perms resolved tagged Hall.
  - injection Hall as <-. simpl. by rewrite !app_nil_r.
  - simpl in *. unfold getitem.
    destruct (get_object w (Pointer.id_at_location p)) as [[l o]|]; [|done].
    simpl in Hall.
    destruct (mapM _ ptrs) as [rest|] eqn:Hrest; [|done].
    injection Hall as <-. rewrite (IH rest) by done.
    simpl. by rewrite <- !(assoc_L (++)).
Qed.

Lemma resolve_args_missing (w : world) (ptrs : list Pointer.t)
    (perms : AccessSet) (resolved : list pyval) (tagged : list loc) :
  lookup_all w ptrs = None ->
  exists k, resolve_args w ptrs perms resolved tagged = Raises (KeyError k).
Proof.
  unfold lookup_all.
  revert perms resolved tagged.
  induction ptrs as [|p ptrs IH]; intros perms resolved tagged Hall; [done|].
  simpl in *. unfold getitem.
  destruct (get_object w (Pointer.id_at_location p)) as [[l o]|]; [|eauto].
  simpl in Hall. apply IH.
  by destruct (mapM _ ptrs).
Qed.

Lemma resolve_kwargs_resolved (w : world) (kw : list (string * Pointer.t))
    (objs : list (loc * StorableObject.t)) (perms : AccessSet)
    (resolved : list (string * pyval)) (tagged : list (string * loc)) :
  lookup_all w kw.*2 = Some objs ->
  resolve_kwargs w kw perms resolved tagged
  = Returns (foldl intersect_keys perms (access_sets objs),
             resolved ++ named kw (payloads objs),
             tagged ++ named kw objs.*1).
Proof.
  unfold lookup_all, named.
  revert objs perms resolved tagged.
  induction kw as [|[n p] kw IH]; intros objs perms resolved tagged Hall.
  - injection Hall as <-. simpl. by rewrite !app_nil_r.
  - simpl in *. unfold getitem.
    destruct (get_object w (Pointer.id_at_location p)) as [[l o]|]; [|done].
    match type of Hall with
    | context [mapM ?f ?l] => destruct (mapM f l) as [rest|] eqn:Hrest
    end; [|done].
    injection Hall as <-. rewrite (IH rest) by exact Hrest.
    simpl. by rewrite <- !(assoc_L (++)).
Qed.

Lemma resolve_kwargs_missing (w : world) (kw : list (string * Pointer.t))
    (perms : AccessSet) (resolved : list (string * pyval))
    (tagged : list (string * loc)) :
  lookup_all w kw.*2 = None ->
  exists k, resolve_kwargs w kw perms resolved tagged = Raises (KeyError k).
Proof.
  unfold lookup_all.
  revert perms resolved tagged.
  induction kw as [|[n p] kw IH]; intros perms resolved tagged Hall; [done|].
  simpl in *. unfold getitem.
  destruct (get_object w (Pointer.id_at_location p)) as [[l o]|]; [|eauto].
  apply IH. simpl in Hall.
  match type of Hall with
  | context [mapM ?f ?l] => change (kw.*2) with l; by destruct (mapM f l)
  end.
Qed.

(** *** Lines 88-174 *)

Lemma run_call_resolved (env : Collaborators) (a : Action) (key : VerifyKey)
    (w : world) (method : callable) (seed : AccessSet)
    (objs kobjs : list (loc * StorableObject.t)) :
  lib_ast env (path a) = Some method ->
  seed_of a w = Some seed ->
  lookup_all w (args a) = Some objs ->
  lookup_all w (kwargs a).*2 = Some kobjs ->
  run_call env a key w =
  match invoke env a method key (receiver_of a w)
          (upcast env <$> payloads objs)
          (prod_map id (upcast env) <$> named (kwargs a) (payloads kobjs)) w
  with
  | (Returns r, w1) =>
      (Returns (Some (Frame (receiver_of a w)
                        (folded_access_set seed (access_sets objs)
                           (access_sets kobjs))
                        objs.*1 (named (kwargs a) kobjs.*1) r)), w1)
  | (Raises e, w1) => (Raises e, w1)
  end.
Proof.
  intros Hm Hseed Hargs Hkw. unfold run_call, resolve_method. rewrite Hm.
  run_M. rewrite (resolve_self_seeded _ _ _ Hseed).
  rewrite (resolve_args_resolved _ _ _ _ _ _ Hargs). simpl.
  rewrite (resolve_kwargs_resolved _ _ _ _ _ _ Hkw). simpl.
  unfold folded_access_set. rewrite foldl_app.
  by destruct (invoke _ _ _ _ _ _ _ w) as [[r|e] w1].
Qed.

(** An argument the store does not hold stops the call before anything
    is invoked, with the node as it was. *)
Lemma run_call_missing (env : Collaborators) (a : Action) (key : VerifyKey)
    (w : world) (method : callable) (seed : AccessSet) :
  lib_ast env (path a) = Some method ->
  seed_of a w = Some seed ->
  lookup_all w (args a ++ (kwargs a).*2) = None ->
  exists k, run_call env a key w = (Raises (KeyError k), w).
Proof.
  intros Hm Hseed Hmiss. unfold run_call, resolve_method. rewrite Hm.
  run_M. rewrite (resolve_self_seeded _ _ _ Hseed).
  destruct (lookup_all w (args a)) as [objs|] eqn:Hargs.
  - rewrite (resolve_args_resolved _ _ _ _ _ _ Hargs). simpl.
    destruct (lookup_all w (kwargs a).*2) as [kobjs|] eqn:Hkw.
    + exfalso. unfold lookup_all in *.
      apply mapM_None, Exists_app in Hmiss as [Hex|Hex].
      * apply mapM_None in Hex. congruence.
      * apply mapM_None in Hex. congruence.
    + destruct (resolve_kwargs_missing w (kwargs a)
                  (foldl intersect_keys seed (access_sets objs))
                  [] [] Hkw) as [k ->].
      eauto.
  - destruct (resolve_args_missing w (args a) seed [] [] Hargs) as [k ->].
    eauto.
Qed.

(** Only the plan shape is handed the node: any other call leaves the
    store and every held object as they were. *)
Lemma invoke_keeps_store (env : Collaborators) (a : Action)
    (method : callable) (key : VerifyKey) (rs : option loc)
    (ua : list pyval) (uk : list (string * pyval)) (w w1 : world)
    (o : outcome pyval) :
  invoke env a method key rs ua uk w = (o, w1) ->
  (forall self_obj, is_static a = false ->
     rs ≫= (heap w !!.) = Some self_obj -> plan_shaped a self_obj = false) ->
  store w1 = store w /\ heap w1 = heap w.
Proof.
  unfold invoke, plan_shaped. intros Hrun Hshape.
  destruct (is_static a).
  - unfold lift in Hrun. by injection Hrun as _ <-.
  - revert Hrun. run_M.
    destruct (option_bind _ _ _ rs) as [self_obj|] eqn:Hself.
    + rewrite (Hshape self_obj eq_refl Hself).
      destruct (getattr env _ _) as [target|].
      * destruct (negb _); by intros [= _ <-].
      * by intros [= _ <-].
    + by intros [= _ <-].
Qed.

(** *** Lines 176-195 *)

Lemma set_id_read_permissions (i : UID) (o : StorableObject.t) :
  StorableObject.read_permissions (StorableObject.set_id i o)
  = StorableObject.read_permissions o.
Proof. done. Qed.

Lemma assign_identity_frame (dest : UID) (r : pyval) (w w1 : world)
    (o : outcome pyval) :
  assign_identity dest r w = (o, w1) ->
  store w1 = store w /\ log w1 = log w /\
  (forall l, access_set_of w1 l = access_set_of w l) /\
  (is_Stored r = false -> w1 = w).
Proof.
  destruct r as [v|v i|p [|i|i|i|i j] v|l]; simpl; run_M;
    try (by intros [= _ <-]).
  - destruct (N.eqb i dest); by intros [= _ <-].
  - intros [= _ <-]. simpl. repeat split; try done.
    intros l'. unfold access_set_of. simpl.
    rewrite lookup_alter. case_decide; [subst|done].
    by destruct (heap w !! l').
Qed.

Lemma assign_identity_result (dest : UID) (r r' : pyval) (w w1 : world) :
  assign_identity dest r w = (Returns r', w1) ->
  is_Stored r' = is_Stored r /\ (is_Stored r = true -> r' = r).
Proof.
  destruct r as [v|v i|p [|i|i|i|i j] v|l]; simpl; run_M;
    try (by intros [= <- _]); try done.
  destruct (N.eqb i dest); [by intros [= <- _]|done].
Qed.

Lemma assign_identity_accepts (dest : UID) (r : pyval) (w : world) :
  accepts_identity dest r = true ->
  exists r' w1, assign_identity dest r w = (Returns r', w1).
Proof.
  destruct r as [v|v i|p [|i|i|i|i j] v|l]; simpl; run_M; eauto; try done.
  intros ->. eauto.
Qed.

(** *** Lines 197-215 *)

Lemma propagate_to_receiver_spec (mutating : bool) (rs : option loc)
    (perms : AccessSet) (w : world) :
  exists w1,
    propagate_to_receiver mutating rs perms w = (Returns tt, w1) /\
    store w1 = store w /\ log w1 = log w /\
    dom (heap w1) = dom (heap w) /\
    forall l, access_set_of w1 l =
              if decide (mutating = true /\ rs = Some l)
              then (fun _ => perms) <$> heap w !! l
              else access_set_of w l.
Proof.
  unfold propagate_to_receiver.
  destruct mutating; [destruct rs as [lr|]|]; run_M; eexists;
    (split; [done|]); simpl; (split; [done|]); (split; [done|]); split.
  - apply dom_alter_L.
  - intros l. unfold access_set_of. simpl. rewrite lookup_alter.
    destruct (decide (lr = l)) as [->|Hne].
    + rewrite decide_True by done. by destruct (heap w !! l).
    + rewrite decide_False; [done|]. intros [_ [= ?]]. done.
  - done.
  - done.
  - done.
  - done.
Qed.

Lemma wrap_result_spec (dest : UID) (r : pyval) (perms : AccessSet)
    (w : world) :
  exists l w1,
    wrap_result dest r perms w = (Returns l, w1) /\
    store w1 = store w /\ log w1 = log w /\
    match r with
    | Stored lr => l = lr /\ w1 = w
    | _ => heap w !! l = None /\
           heap w1 = <[l := StorableObject.Make dest r perms []]> (heap w)
    end.
Proof.
  assert (heap w !! fresh (dom (heap w)) = None) as Hfresh.
  { apply not_elem_of_dom, is_fresh. }
  destruct r; simpl; run_M; eauto 10.
Qed.

Lemma set_tags_read_permissions (ts : list string) (o : StorableObject.t) :
  StorableObject.read_permissions (StorableObject.set_tags ts o)
  = StorableObject.read_permissions o.
Proof. done. Qed.

Lemma tag_result_spec (env : Collaborators) (path : string) (l : loc)
    (rs : option loc) (ta : list loc) (tk : list (string * loc))
    (w : world) :
  exists w1,
    tag_result env path l rs ta tk w = (Returns tt, w1) /\
    store w1 = store w /\ log w1 = log w /\
    forall l', access_set_of w1 l' = access_set_of w l'.
Proof.
  unfold tag_result. run_M.
  destruct (heap w !! l) as [o|] eqn:Hl; eexists; (split; [done|]);
    simpl; repeat split; try done.
  intros l'. unfold access_set_of. simpl. rewrite lookup_alter.
  case_decide; [subst|done]. by rewrite Hl.
Qed.

(** What the tail of [execute_action] leaves behind: the destination
    identifier holds [l]; a freshly wrapped result carries the folded
    Access Set; the receiver of a mutating call carries it too; every
    other object keeps the Access Set it had. *)
Lemma commit_spec (env : Collaborators) (a : Action) (mutating : bool)
    (rs : option loc) (perms : AccessSet) (ta : list loc)
    (tk : list (string * loc)) (r : pyval) (w : world) :
  exists w' l,
    commit env a mutating rs perms ta tk r w = (Returns tt, w') /\
    store w' = <[id_at_location a := l]> (store w) /\
    log w' = log w /\
    (forall lr, r = Stored lr -> l = lr) /\
    (is_Stored r = false -> access_set_of w l = None) /\
    forall l', access_set_of w' l' =
               if decide (l' = l /\ is_Stored r = false) then Some perms
               else if decide (mutating = true /\ rs = Some l')
               then (fun _ => perms) <$> heap w !! l'
               else access_set_of w l'.
Proof.
  unfold commit.
  destruct (propagate_to_receiver_spec mutating rs perms w)
    as (w1 & Hrun1 & Hst1 & Hlog1 & Hdom1 & Hacc1).
  destruct (wrap_result_spec (id_at_location a) r perms w1)
    as (l & w2 & Hrun2 & Hst2 & Hlog2 & Hwrap).
  destruct (tag_result_spec env (path a) l rs ta tk w2)
    as (w3 & Hrun3 & Hst3 & Hlog3 & Hacc3).
  exists (World (<[id_at_location a := l]> (store w3)) (heap w3) (log w3)), l.
  split.
  { unfold mbind, M_bind. rewrite Hrun1, Hrun2, Hrun3. done. }
  simpl. rewrite Hst3, Hst2, Hst1, Hlog3, Hlog2, Hlog1.
  repeat split; try done.
  - intros lr ->. by destruct Hwrap as [-> _].
  - intros Hfresh.
    assert (heap w1 !! l = None) as Hnone by (by destruct r; destruct Hwrap).
    apply not_elem_of_dom in Hnone. rewrite Hdom1 in Hnone.
    apply not_elem_of_dom in Hnone. unfold access_set_of. by rewrite Hnone.
  - intros l'.
    change (access_set_of (World (<[id_at_location a := l]> (store w))
                             (heap w3) (log w)) l')
      with (access_set_of w3 l').
    rewrite Hacc3.
    destruct (is_Stored r) eqn:Hstored.
    + rewrite decide_False by (by intros [_ ?]).
      destruct r; try done. destruct Hwrap as [_ ->]. apply Hacc1.
    + assert (heap w1 !! l = None /\
              heap w2 = <[l := StorableObject.Make (id_at_location a) r
                                  perms []]> (heap w1)) as [Hnone Hheap].
      { by destruct r. }
      unfold access_set_of at 1. rewrite Hheap.
      destruct (decide (l' = l)) as [->|Hne].
      * rewrite decide_True by done. by rewrite lookup_insert_eq.
      * rewrite decide_False by (by intros [? _]).
        rewrite lookup_insert_ne by done. apply Hacc1.
Qed.

(** ** execute_action *)

Lemma execute_action_unfold (env : Collaborators) (a : Action)
    (key : VerifyKey) (w : world) :
  execute_action env a key w =
  match run_call env a key w with
  | (Returns None, w1) => (Returns tt, w1)
  | (Returns (Some fr), w1) =>
      match assign_identity (id_at_location a) (result fr) w1 with
      | (Returns r, w2) =>
          commit env a (mutating_internal (path a)) (resolved_self fr)
                 (result_read_permissions fr) (tag_args fr) (tag_kwargs fr)
                 r w2
      | (Raises e, w2) => (Raises e, w2)
      end
  | (Raises e, w1) => (Raises e, w1)
  end.
Proof.
  unfold execute_action, mbind, M_bind.
  by destruct (run_call env a key w) as [[[fr|]|e] w1].
Qed.

(** C7, as the code has it: when the path resolves in the capability
    table, a non-static action whose receiver identifier the store does
    not hold logs one critical diagnostic and returns normally, with the
    store and every held object as they were. *)
Theorem missing_receiver_soft_abort (env : Collaborators) (a : Action)
    (key : VerifyKey) (w : world) (p : Pointer.t) (method : callable) :
  is_static a = false ->
  _self a = Some p ->
  store w !! Pointer.id_at_location p = None ->
  lib_ast env (path a) = Some method ->
  execute_action env a key w
  = (Returns tt,
     World (store w) (heap w)
           (log w ++ [Critical (path a) (Pointer.id_at_location p)])).
Proof.
  intros Hst Hself Habs Hm.
  rewrite execute_action_unfold. unfold run_call, resolve_method.
  rewrite Hm. run_M.
  by rewrite (resolve_self_absent a w p Hst Hself (get_object_absent _ _ Habs)).
Qed.

Lemma missing_receiver_soft_abort_witness :
  execute_action Scenario.env Scenario.absent_receiver Scenario.caller
    Scenario.node
  = (Returns tt,
     World (store Scenario.node) (heap Scenario.node)
           [Critical "torch.Tensor.add" 999%N]).
Proof.
  apply (missing_receiver_soft_abort Scenario.env Scenario.absent_receiver
           Scenario.caller Scenario.node (Scenario.ptr 999%N)
           Scenario.fresh_value);
    reflexivity.
Defined.

(** C7 as stated fails when the path does not resolve: line 88 runs
    before the receiver is looked up, and its failure reaches the caller. *)
Lemma missing_receiver_unknown_path_raises :
  is_static Scenario.unknown_path = false /\
  _self Scenario.unknown_path = Some (Scenario.ptr 999%N) /\
  store Scenario.node !! 999%N = None /\
  execute_action Scenario.env Scenario.unknown_path Scenario.caller
    Scenario.node
  = (Raises (ResolutionError "nowhere.method"), Scenario.node).
Proof. repeat split; reflexivity. Qed.

Lemma lookup_all_absent (w : world) (ptrs : list Pointer.t)
    (arg : Pointer.t) :
  arg ∈ ptrs ->
  store w !! Pointer.id_at_location arg = None ->
  lookup_all w ptrs = None.
Proof.
  intros Hin Habs. apply mapM_None, Exists_exists.
  exists arg. split; [done|]. by apply get_object_absent.
Qed.

(** C8, as the code has it: an action with a positional or named argument
    whose identifier the store does not hold raises an error and leaves
    the node exactly as it was, unless the call is non-static with a
    receiver reference that the store does not hold either.  That case
    never reaches the arguments: when the path resolves, the run returns
    at line 111 without raising, having logged the missing receiver and
    written nothing. *)
Theorem missing_argument_raises (env : Collaborators) (a : Action)
    (key : VerifyKey) (w : world) (arg : Pointer.t) :
  arg ∈ args a ++ (kwargs a).*2 ->
  store w !! Pointer.id_at_location arg = None ->
  ((is_static a = false ->
    forall p, _self a = Some p ->
              is_Some (get_object w (Pointer.id_at_location p))) ->
   exists e, execute_action env a key w = (Raises e, w)) /\
  (forall p method,
     is_static a = false -> _self a = Some p ->
     store w !! Pointer.id_at_location p = None ->
     lib_ast env (path a) = Some method ->
     execute_action env a key w
     = (Returns tt,
        World (store w) (heap w)
              (log w ++ [Critical (path a) (Pointer.id_at_location p)]))).
Proof.
  intros Hin Habs. split.
  - intros Hrecv. rewrite execute_action_unfold.
    destruct (lib_ast env (path a)) as [method|] eqn:Hm.
    + destruct (seed_of a w) as [seed|] eqn:Hseed.
      * destruct (run_call_missing env a key w method seed Hm Hseed
                    (lookup_all_absent _ _ _ Hin Habs)) as [k ->].
        eauto.
      * unfold seed_of in Hseed. destruct (is_static a) eqn:Hst; [done|].
        unfold run_call, resolve_method, resolve_self. rewrite Hm, Hst.
        destruct (_self a) as [p|] eqn:Hp.
        -- destruct (Hrecv eq_refl p eq_refl) as [[l o] Hget].
           unfold access_set_at in Hseed. simpl in Hseed.
           by rewrite Hget in Hseed.
        -- run_M. eauto.
    + unfold run_call, resolve_method. rewrite Hm. run_M. eauto.
  - intros p method Hst Hself Hgone Hm.
    rewrite execute_action_unfold. unfold run_call, resolve_method.
    rewrite Hm. run_M.
    by rewrite (resolve_self_absent a w p Hst Hself
                  (get_object_absent _ _ Hgone)).
Qed.

Lemma missing_argument_raises_witness :
  (exists e,
     execute_action Scenario.env Scenario.absent_argument Scenario.caller
       Scenario.node = (Raises e, Scenario.node)) /\
  execute_action Scenario.env Scenario.absent_both Scenario.caller
    Scenario.node
  = (Returns tt,
     World (store Scenario.node) (heap Scenario.node)
           [Critical "torch.Tensor.add" 999%N]).
Proof.
  split.
  - apply (missing_argument_raises Scenario.env Scenario.absent_argument
             Scenario.caller Scenario.node (Scenario.ptr 998%N)).
    + vm_compute. apply list_elem_of_In. right. left. reflexivity.
    + reflexivity.
    + discriminate.
  - apply (proj2 (missing_argument_raises Scenario.env Scenario.absent_both
                    Scenario.caller Scenario.node (Scenario.ptr 998%N)
                    ltac:(apply list_elem_of_In; left; reflexivity)
                    eq_refl)
             (Scenario.ptr 999%N) Scenario.fresh_value);
      reflexivity.
Defined.

(** C8 as stated fails when the receiver is absent too: the call returns
    normally at line 111 and no error reaches the caller. *)
Lemma missing_argument_absent_receiver_returns :
  Scenario.ptr 998%N ∈ args Scenario.absent_both /\
  store Scenario.node !! 998%N = None /\
  fst (execute_action Scenario.env Scenario.absent_both Scenario.caller
         Scenario.node) = Returns tt.
Proof.
  split; [|split; reflexivity].
  apply list_elem_of_In. left. reflexivity.
Qed.

(** Once the call has returned, the run completes as soon as the result
    takes the destination identifier. *)
Lemma execute_action_completes (env : Collaborators) (a : Action)
    (key : VerifyKey) (w w1 : world) (fr : call_frame) :
  run_call env a key w = (Returns (Some fr), w1) ->
  accepts_identity (id_at_location a) (result fr) = true ->
  exists w', execute_action env a key w = (Returns tt, w').
Proof.
  intros Hcall Hacc. rewrite execute_action_unfold, Hcall.
  destruct (assign_identity_accepts _ _ w1 Hacc) as (r & w2 & ->).
  destruct (commit_spec env a (mutating_internal (path a)) (resolved_self fr)
              (result_read_permissions fr) (tag_args fr) (tag_kwargs fr) r w2)
    as (w' & l & -> & _).
  eauto.
Qed.

(** The node after a completed run, read off the node as the call left
    it: the destination holds [l]; a freshly wrapped result carries the
    folded Access Set, and so does the receiver of a mutating call; every
    other object keeps its Access Set. *)
Lemma execute_action_after_call (env : Collaborators) (a : Action)
    (key : VerifyKey) (w w1 w' : world) (fr : call_frame) :
  run_call env a key w = (Returns (Some fr), w1) ->
  execute_action env a key w = (Returns tt, w') ->
  exists l,
    store w' !! id_at_location a = Some l /\
    (forall lr, result fr = Stored lr -> l = lr) /\
    (is_Stored (result fr) = false -> access_set_of w1 l = None) /\
    forall l', access_set_of w' l' =
               if decide (l' = l /\ is_Stored (result fr) = false)
               then Some (result_read_permissions fr)
               else if decide (mutating_internal (path a) = true /\
                               resolved_self fr = Some l')
               then (fun _ => result_read_permissions fr)
                      <$> access_set_of w1 l'
               else access_set_of w1 l'.
Proof.
  intros Hcall. rewrite execute_action_unfold, Hcall.
  destruct (assign_identity _ _ w1) as [[r|e] w2] eqn:Hid; [|done].
  destruct (assign_identity_frame _ _ _ _ _ Hid) as (_ & _ & Hacc & _).
  destruct (assign_identity_result _ _ _ _ _ Hid) as [Hsame Hkeep].
  destruct (commit_spec env a (mutating_internal (path a)) (resolved_self fr)
              (result_read_permissions fr) (tag_args fr) (tag_kwargs fr) r w2)
    as (w3 & l & -> & Hstore & _ & Halias & Hnew & Hsets).
  intros [= <-]. exists l. split; [|split; [|split]].
  - rewrite Hstore. apply lookup_insert_eq.
  - intros lr Hlr. apply Halias. rewrite <- Hlr. apply Hkeep.
    by rewrite Hlr.
  - intros Hfresh. rewrite <- Hacc. apply Hnew. by rewrite Hsame.
  - intros l'. rewrite Hsets, Hsame, <- !Hacc.
    repeat case_decide; try done.
    all: unfold access_set_of; by destruct (heap w2 !! l').
Qed.

Lemma access_set_at_holds (w : world) (k : UID) (l : loc) :
  store w !! k = Some l -> access_set_at w k = access_set_of w l.
Proof. intros Hk. by rewrite access_set_at_store, Hk. Qed.

(** A result that is not already a Stored Object is stored with the
    folded Access Set. *)
Lemma execute_action_wraps (env : Collaborators) (a : Action)
    (key : VerifyKey) (w w1 w' : world) (fr : call_frame) :
  run_call env a key w = (Returns (Some fr), w1) ->
  execute_action env a key w = (Returns tt, w') ->
  is_Stored (result fr) = false ->
  access_set_at w' (id_at_location a) = Some (result_read_permissions fr).
Proof.
  intros Hcall Hrun Hfresh.
  destruct (execute_action_after_call _ _ _ _ _ _ _ Hcall Hrun)
    as (l & Hl & _ & _ & Hsets).
  rewrite (access_set_at_holds _ _ _ Hl), Hsets.
  by rewrite decide_True.
Qed.

(** A call that returned was resolved by the capability table. *)
Lemma run_call_returns_method (env : Collaborators) (a : Action)
    (key : VerifyKey) (w w1 : world) (fr : option call_frame) :
  run_call env a key w = (Returns fr, w1) ->
  exists method, lib_ast env (path a) = Some method.
Proof.
  unfold run_call, resolve_method.
  destruct (lib_ast env (path a)) as [method|]; [eauto|done].
Qed.

(** The frame of a call that returned, when every reference resolves. *)
Lemma run_call_frame (env : Collaborators) (a : Action) (key : VerifyKey)
    (w w1 : world) (seed : AccessSet)
    (objs kobjs : list (loc * StorableObject.t)) (fr : call_frame) :
  seed_of a w = Some seed ->
  lookup_all w (args a) = Some objs ->
  lookup_all w (kwargs a).*2 = Some kobjs ->
  run_call env a key w = (Returns (Some fr), w1) ->
  exists method,
    lib_ast env (path a) = Some method /\
    resolved_self fr = receiver_of a w /\
    result_read_permissions fr
    = folded_access_set seed (access_sets objs) (access_sets kobjs) /\
    invoke env a method key (receiver_of a w)
      (upcast env <$> payloads objs)
      (prod_map id (upcast env) <$> named (kwargs a) (payloads kobjs)) w
    = (Returns (result fr), w1).
Proof.
  intros Hseed Hargs Hkw Hcall.
  destruct (run_call_returns_method _ _ _ _ _ _ Hcall) as [method Hm].
  exists method. split; [done|].
  rewrite (run_call_resolved env a key w method seed objs kobjs
             Hm Hseed Hargs Hkw) in Hcall.
  destruct (invoke _ _ _ _ _ _ _ w) as [[r|e] w2]; [|done].
  by injection Hcall as <- <-.
Qed.

Lemma access_set_of_Some (w : world) (l : loc) (A : AccessSet) :
  access_set_of w l = Some A <->
  exists o, heap w !! l = Some o /\ StorableObject.read_permissions o = A.
Proof.
  unfold access_set_of. destruct (heap w !! l) as [o|]; simpl.
  - split; [intros [= <-]; eauto|]. by intros (o' & [= <-] & <-).
  - split; [done|]. by intros (o' & ? & _).
Qed.

(** C4, as the code has it: when every reference resolves and the call
    returns, the Access Set computed for the result is the left-to-right
    fold of [intersect_keys] from the receiver's Access Set (the empty set
    for a static call) through the positional arguments in order and then
    the named arguments in insertion order.  A result that is not already
    a Stored Object, and that takes the destination identifier, is stored
    with exactly that Access Set.  A result that is a Stored Object the
    node holds is stored as it is, the same object under the destination
    identifier, carrying the Access Set it had when the invocation
    returned; the one exception is the receiver of a call classified as
    mutating, which has just been given the fold. *)
Theorem result_access_set_is_fold (env : Collaborators) (a : Action)
    (key : VerifyKey) (w w1 : world) (seed : AccessSet)
    (objs kobjs : list (loc * StorableObject.t)) (fr : call_frame) :
  seed_of a w = Some seed ->
  lookup_all w (args a) = Some objs ->
  lookup_all w (kwargs a).*2 = Some kobjs ->
  run_call env a key w = (Returns (Some fr), w1) ->
  result_read_permissions fr
  = folded_access_set seed (access_sets objs) (access_sets kobjs) /\
  (is_Stored (result fr) = false ->
   accepts_identity (id_at_location a) (result fr) = true ->
   exists w',
     execute_action env a key w = (Returns tt, w') /\
     access_set_at w' (id_at_location a)
     = Some (folded_access_set seed (access_sets objs) (access_sets kobjs)))
  /\
  (forall lr held,
     result fr = Stored lr ->
     heap w1 !! lr = Some held ->
     exists w' o,
       execute_action env a key w = (Returns tt, w') /\
       get_object w' (id_at_location a) = Some (lr, o) /\
       StorableObject.read_permissions o
       = if decide (mutating_internal (path a) = true /\
                    receiver_of a w = Some lr)
         then folded_access_set seed (access_sets objs) (access_sets kobjs)
         else StorableObject.read_permissions held).
Proof.
  intros Hseed Hargs Hkw Hcall.
  destruct (run_call_frame _ _ _ _ _ _ _ _ _ Hseed Hargs Hkw Hcall)
    as (method & _ & Hrs & Hfold & _).
  split; [done|]. split.
  - intros Hfresh Hacc.
    destruct (execute_action_completes _ _ _ _ _ _ Hcall Hacc) as [w' Hrun].
    exists w'. split; [done|]. rewrite <- Hfold.
    by eapply execute_action_wraps.
  - intros lr held Hlr Hheld.
    assert (accepts_identity (id_at_location a) (result fr) = true) as Hacc
      by (by rewrite Hlr).
    destruct (execute_action_completes _ _ _ _ _ _ Hcall Hacc) as [w' Hrun].
    destruct (execute_action_after_call _ _ _ _ _ _ _ Hcall Hrun)
      as (l & Hl & Halias & _ & Hsets).
    rewrite (Halias lr Hlr) in Hl. specialize (Hsets lr).
    rewrite decide_False in Hsets by (rewrite Hlr; by intros [_ ?]).
    assert (access_set_of w1 lr
            = Some (StorableObject.read_permissions held)) as Hw1
      by (unfold access_set_of; by rewrite Hheld).
    rewrite Hw1, Hrs, Hfold in Hsets.
    assert (access_set_of w' lr
            = Some (if decide (mutating_internal (path a) = true /\
                               receiver_of a w = Some lr)
                    then folded_access_set seed (access_sets objs)
                           (access_sets kobjs)
                    else StorableObject.read_permissions held)) as Hw'.
    { rewrite Hsets. by case_decide. }
    apply access_set_of_Some in Hw' as (o & Ho & Hperms).
    exists w', o. split; [done|]. split; [|done].
    apply get_object_Some. by split.
Qed.

Lemma result_access_set_is_fold_witness :
  (exists w',
     execute_action Scenario.env Scenario.mutating_call Scenario.caller
       Scenario.node = (Returns tt, w') /\
     access_set_at w' Scenario.dest = Some {[Scenario.P1 := 13%N]}) /\
  (exists w' o,
     execute_action Scenario.env Scenario.static_held Scenario.caller
       Scenario.node = (Returns tt, w') /\
     get_object w' Scenario.dest = Some (2%positive, o) /\
     StorableObject.read_permissions o
     = <[Scenario.P1 := 11%N]> {[Scenario.P2 := 12%N]}).
Proof.
  split.
  - destruct (result_access_set_is_fold Scenario.env Scenario.mutating_call
                Scenario.caller Scenario.node Scenario.node
                (StorableObject.read_permissions Scenario.o103)
                [(1%positive, Scenario.o101)] []
                (Frame (Some 3%positive) {[Scenario.P1 := 13%N]}
                   [1%positive] [] (Primitive 0)))
      as (_ & Hfresh & _); try (vm_compute; reflexivity).
    destruct (Hfresh eq_refl eq_refl) as (w' & Hrun & Hset).
    exists w'. split; [exact Hrun|].
    etrans; [exact Hset|]. vm_compute. reflexivity.
  - destruct (result_access_set_is_fold Scenario.env Scenario.static_held
                Scenario.caller Scenario.node Scenario.node ∅
                [(1%positive, Scenario.o101); (2%positive, Scenario.o102)]
                []
                (Frame None ∅ [1%positive; 2%positive] []
                   (Stored 2%positive)))
      as (_ & _ & Hheld); try (vm_compute; reflexivity).
    destruct (Hheld 2%positive Scenario.o102 eq_refl eq_refl)
      as (w' & o & Hrun & Hget & Hperms).
    exists w', o. split; [exact Hrun|]. split; [exact Hget|].
    etrans; [exact Hperms|]. reflexivity.
Defined.

(** C4 as stated fails for a callable that hands back an object the node
    already holds: the fold is empty (a static call), yet the object stored
    under the destination keeps its own Access Set, with [P1] and [P2]. *)
Lemma stored_result_keeps_its_access_set :
  seed_of Scenario.static_held Scenario.node = Some ∅ /\
  lookup_all Scenario.node (args Scenario.static_held)
  = Some [(1%positive, Scenario.o101); (2%positive, Scenario.o102)] /\
  folded_access_set ∅
    (access_sets [(1%positive, Scenario.o101); (2%positive, Scenario.o102)])
    [] = ∅ /\
  fst (execute_action Scenario.env Scenario.static_held Scenario.caller
         Scenario.node) = Returns tt /\
  access_set_at
    (snd (execute_action Scenario.env Scenario.static_held Scenario.caller
            Scenario.node)) Scenario.dest
  = Some (<[Scenario.P1 := 11%N]> {[Scenario.P2 := 12%N]}) /\
  (<[Scenario.P1 := 11%N]> {[Scenario.P2 := 12%N]} : AccessSet) <> ∅.
Proof.
  split; [reflexivity|]. split; [reflexivity|]. split; [reflexivity|].
  split; [reflexivity|]. split; [reflexivity|].
  intros Heq. apply (f_equal (fun m : AccessSet => m !! Scenario.P1)) in Heq.
  discriminate Heq.
Qed.

(** A static call seeds the fold with the empty set, and the fold never
    leaves it: whatever the arguments allow, the wrapped result is readable
    by no principal. *)
Lemma static_call_wraps_empty (env : Collaborators) (a : Action)
    (key : VerifyKey) (w : world) (method : callable)
    (objs kobjs : list (loc * StorableObject.t)) (r : pyval) :
  is_static a = true ->
  lookup_all w (args a) = Some objs ->
  lookup_all w (kwargs a).*2 = Some kobjs ->
  lib_ast env (path a) = Some method ->
  fn_call method (upcast env <$> payloads objs)
    (prod_map id (upcast env) <$> named (kwargs a) (payloads kobjs))
  = Returns r ->
  is_Stored r = false ->
  accepts_identity (id_at_location a) r = true ->
  exists w',
    execute_action env a key w = (Returns tt, w') /\
    access_set_at w' (id_at_location a) = Some ∅.
Proof.
  intros Hst Hargs Hkw Hm Hr Hfresh Hacc.
  assert (seed_of a w = Some ∅) as Hseed by (unfold seed_of; by rewrite Hst).
  pose proof (run_call_resolved env a key w method ∅ objs kobjs
                Hm Hseed Hargs Hkw) as Hcall.
  unfold invoke in Hcall. rewrite Hst in Hcall. unfold lift in Hcall.
  rewrite Hr in Hcall.
  destruct (execute_action_completes _ _ _ _ _ _ Hcall Hacc) as [w' Hrun].
  exists w'. split; [done|].
  rewrite (execute_action_wraps _ _ _ _ _ _ _ Hcall Hrun Hfresh). simpl.
  unfold folded_access_set. by rewrite foldl_intersect_keys_empty.
Qed.

(** C1, as the code has it: a static action whose two positional
    arguments are held with Access Sets [{P1}] and [{P1, P2}], whose named
    arguments are held too, and whose callable returns a value that is not
    already a Stored Object and takes the destination identifier, runs to
    completion and stores under the destination identifier a result whose
    Access Set is empty. *)
Theorem static_call_stores_empty_access_set (env : Collaborators)
    (a : Action) (key : VerifyKey) (w : world) (method : callable)
    (P1 P2 : VerifyKey) (p1 p2 : Pointer.t) (l1 l2 : loc)
    (o1 o2 : StorableObject.t) (kobjs : list (loc * StorableObject.t))
    (r : pyval) :
  is_static a = true ->
  args a = [p1; p2] ->
  get_object w (Pointer.id_at_location p1) = Some (l1, o1) ->
  get_object w (Pointer.id_at_location p2) = Some (l2, o2) ->
  dom (StorableObject.read_permissions o1) = {[P1]} ->
  dom (StorableObject.read_permissions o2) = {[P1; P2]} ->
  lookup_all w (kwargs a).*2 = Some kobjs ->
  lib_ast env (path a) = Some method ->
  fn_call method
    (upcast env <$> [StorableObject.data o1; StorableObject.data o2])
    (prod_map id (upcast env) <$> named (kwargs a) (payloads kobjs))
  = Returns r ->
  is_Stored r = false ->
  accepts_identity (id_at_location a) r = true ->
  exists w',
    execute_action env a key w = (Returns tt, w') /\
    access_set_at w' (id_at_location a) = Some ∅.
Proof.
  intros Hst Hargs H1 H2 _ _ Hkw Hm Hr Hfresh Hacc.
  apply (static_call_wraps_empty env a key w method
           [(l1, o1); (l2, o2)] kobjs r); try done.
  rewrite Hargs. unfold lookup_all. simpl. by rewrite H1, H2.
Qed.

Lemma static_call_stores_empty_access_set_witness :
  exists w',
    execute_action Scenario.env Scenario.static_call Scenario.caller
      Scenario.node = (Returns tt, w') /\
    access_set_at w' Scenario.dest = Some ∅.
Proof.
  apply (static_call_stores_empty_access_set Scenario.env
           Scenario.static_call Scenario.caller Scenario.node
           Scenario.fresh_value Scenario.P1 Scenario.P2
           (Scenario.ptr 101%N) (Scenario.ptr 102%N) 1%positive 2%positive
           Scenario.o101 Scenario.o102 [] (Primitive 0));
    vm_compute; reflexivity.
Defined.

(** C1 as stated fails: the static call on arguments readable by [{P1}]
    and [{P1, P2}] completes, and the result it stores is readable by
    nobody, not by [P1]. *)
Lemma static_call_result_is_not_P1 :
  is_static Scenario.static_call = true /\
  (dom <$> access_set_at Scenario.node 101%N) = Some {[Scenario.P1]} /\
  (dom <$> access_set_at Scenario.node 102%N)
  = Some {[Scenario.P1; Scenario.P2]} /\
  fst (execute_action Scenario.env Scenario.static_call Scenario.caller
         Scenario.node) = Returns tt /\
  (dom <$> access_set_at
     (snd (execute_action Scenario.env Scenario.static_call Scenario.caller
             Scenario.node)) Scenario.dest) = Some ∅ /\
  (∅ : gset VerifyKey) <> {[Scenario.P1]}.
Proof.
  split; [reflexivity|]. split; [vm_compute; reflexivity|].
  split; [vm_compute; reflexivity|]. split; [reflexivity|].
  split; [vm_compute; reflexivity|].
  intros Heq. assert (Scenario.P1 ∈ (∅ : gset VerifyKey)) as Hin.
  { rewrite Heq. by apply elem_of_singleton. }
  by apply not_elem_of_empty in Hin.
Qed.

Lemma plan_shaped_path (a : Action) (self_obj : StorableObject.t) :
  plan_shaped a self_obj = true -> endswith (path a) "__call__" = true.
Proof.
  unfold plan_shaped. intros Hshape.
  apply andb_true_iff in Hshape as [_ Hname].
  apply String.eqb_eq in Hname. rewrite <- Hname.
  apply method_name_of_endswith.
Qed.

(** C9, as the code has it.  Take a non-static call whose receiver and
    arguments resolve, which returns and completes, and whose receiver
    object is still alive after the invocation.

    If the path is classified as mutating, the receiver's own Access Set
    has been overwritten in place with the folded Access Set; the object
    held under the destination identifier carries that set too when the
    result is freshly wrapped or is the receiver object itself; and when
    the result is another Stored Object the node holds, that object is
    filed with the Access Set it had, not with the fold.

    If the path is not classified as mutating, the executor leaves the
    receiver's Access Set as the invocation left it; that is the set it
    had before the call unless the call has the plan shape, the one shape
    that is handed the node, which for a path not classified as mutating
    means a path under [torch.Tensor] that ends in [__call__]. *)
Theorem mutating_call_propagates (env : Collaborators) (a : Action)
    (key : VerifyKey) (w w1 w' : world) (p : Pointer.t) (l : loc)
    (o : StorableObject.t) (objs kobjs : list (loc * StorableObject.t))
    (fr : call_frame) :
  is_static a = false ->
  _self a = Some p ->
  get_object w (Pointer.id_at_location p) = Some (l, o) ->
  lookup_all w (args a) = Some objs ->
  lookup_all w (kwargs a).*2 = Some kobjs ->
  run_call env a key w = (Returns (Some fr), w1) ->
  is_Some (heap w1 !! l) ->
  execute_action env a key w = (Returns tt, w') ->
  if mutating_internal (path a)
  then
    access_set_of w' l
    = Some (folded_access_set (StorableObject.read_permissions o)
              (access_sets objs) (access_sets kobjs)) /\
    (is_Stored (result fr) = false \/ result fr = Stored l ->
     access_set_at w' (id_at_location a)
     = Some (folded_access_set (StorableObject.read_permissions o)
               (access_sets objs) (access_sets kobjs))) /\
    (forall lr A,
       result fr = Stored lr -> lr <> l ->
       access_set_of w1 lr = Some A ->
       access_set_at w' (id_at_location a) = Some A)
  else
    access_set_of w' l = access_set_of w1 l /\
    (plan_shaped a o = false ->
     access_set_of w' l = Some (StorableObject.read_permissions o)) /\
    (plan_shaped a o = true ->
     startswith (path a) "torch.Tensor" = true /\
     endswith (path a) "__call__" = true).
Proof.
  intros Hst Hself Hget Hargs Hkw Hcall [o1 Halive] Hrun.
  assert (seed_of a w = Some (StorableObject.read_permissions o)) as Hseed.
  { unfold seed_of, access_set_at. rewrite Hst, Hself. simpl.
    by rewrite Hget. }
  assert (receiver_of a w = Some l) as Hrecv.
  { unfold receiver_of. rewrite Hst, Hself. simpl. by rewrite Hget. }
  destruct (run_call_frame _ _ _ _ _ _ _ _ _ Hseed Hargs Hkw Hcall)
    as (method & _ & Hrs & Hfold & Hinv).
  rewrite Hrecv in Hrs, Hinv. rewrite <- Hfold.
  destruct (execute_action_after_call _ _ _ _ _ _ _ Hcall Hrun)
    as (l0 & Hl0 & Halias & Hnew & Hsets).
  assert (access_set_of w1 l = Some (StorableObject.read_permissions o1))
    as Hw1 by (unfold access_set_of; by rewrite Halive).
  destruct (mutating_internal (path a)) eqn:Hmut.
  - assert (access_set_of w' l = Some (result_read_permissions fr)) as Hl.
    { rewrite Hsets.
      destruct (decide (l = l0 /\ is_Stored (result fr) = false)); [done|].
      rewrite decide_True by (by split). by rewrite Hw1. }
    split; [done|]. split.
    + intros [Hfresh|Hsame].
      * rewrite (access_set_at_holds _ _ _ Hl0), Hsets.
        by rewrite decide_True by (by split).
      * rewrite (access_set_at_holds _ _ _ Hl0).
        by rewrite (Halias l Hsame).
    + intros lr A Hlr Hne HA.
      rewrite (access_set_at_holds _ _ _ Hl0), (Halias lr Hlr), Hsets.
      rewrite decide_False by (rewrite Hlr; by intros [_ ?]).
      rewrite decide_False; [done|].
      intros [_ Heq]. rewrite Hrs in Heq. by injection Heq.
  - assert (access_set_of w' l = access_set_of w1 l) as Hl.
    { rewrite Hsets.
      destruct (decide (l = l0 /\ is_Stored (result fr) = false))
        as [[-> Hfresh]|_].
      - rewrite (Hnew Hfresh) in Hw1. done.
      - rewrite decide_False; [done|]. by intros [? _]. }
    split; [done|]. split.
    + intros Hshape. rewrite Hl.
      apply get_object_Some in Hget as [_ Ho].
      destruct (invoke_keeps_store _ _ _ _ _ _ _ _ _ _ Hinv) as [_ Hheap].
      { intros self_obj _. simpl. rewrite Ho. by intros [= <-]. }
      unfold access_set_of. by rewrite Hheap, Ho.
    + intros Hshape. pose proof (plan_shaped_path _ _ Hshape) as Hcall_op.
      split; [|done]. unfold mutating_internal in Hmut.
      rewrite Hcall_op in Hmut.
      by destruct (startswith (path a) "torch.Tensor"),
           (endswith (path a) "_").
Qed.

Lemma mutating_call_propagates_witness :
  (exists w',
     execute_action Scenario.env Scenario.mutating_call Scenario.caller
       Scenario.node = (Returns tt, w') /\
     StorableObject.read_permissions Scenario.o103
     = <[Scenario.P1 := 13%N]> {[Scenario.P2 := 14%N]} /\
     access_set_of w' 3%positive = Some {[Scenario.P1 := 13%N]} /\
     access_set_at w' Scenario.dest = Some {[Scenario.P1 := 13%N]}) /\
  access_set_at
    (snd (execute_action Scenario.env Scenario.mutating_held
            Scenario.caller Scenario.node)) Scenario.dest
  = Some (<[Scenario.P1 := 11%N]> {[Scenario.P2 := 12%N]}).
Proof.
  split.
  - exists (snd (execute_action Scenario.env Scenario.mutating_call
                   Scenario.caller Scenario.node)).
    split; [vm_compute; reflexivity|]. split; [reflexivity|].
    pose proof (mutating_call_propagates Scenario.env Scenario.mutating_call
                  Scenario.caller Scenario.node Scenario.node
                  (snd (execute_action Scenario.env Scenario.mutating_call
                          Scenario.caller Scenario.node))
                  (Scenario.ptr 103%N) 3%positive Scenario.o103
                  [(1%positive, Scenario.o101)] []
                  (Frame (Some 3%positive) {[Scenario.P1 := 13%N]}
                     [1%positive] [] (Primitive 0))
                  eq_refl eq_refl eq_refl eq_refl eq_refl) as Hthm.
    assert (mutating_internal (path Scenario.mutating_call) = true) as Hmut
      by reflexivity.
    rewrite Hmut in Hthm.
    destruct Hthm as (Hrecv & Hdest & _).
    + vm_compute. reflexivity.
    + exists (StorableObject.Make 103%N (Object false (IdBacked 103%N) 7)
                (<[Scenario.P1 := 13%N]> {[Scenario.P2 := 14%N]}) []).
      vm_compute. reflexivity.
    + vm_compute. reflexivity.
    + split.
      * etrans; [exact Hrecv|]. vm_compute. reflexivity.
      * etrans; [exact (Hdest (or_introl eq_refl))|]. vm_compute.
        reflexivity.
  - pose proof (mutating_call_propagates Scenario.env Scenario.mutating_held
                  Scenario.caller Scenario.node Scenario.node
                  (snd (execute_action Scenario.env Scenario.mutating_held
                          Scenario.caller Scenario.node))
                  (Scenario.ptr 103%N) 3%positive Scenario.o103
                  [(1%positive, Scenario.o101)] []
                  (Frame (Some 3%positive) {[Scenario.P1 := 13%N]}
                     [1%positive] [] (Stored 2%positive))
                  eq_refl eq_refl eq_refl eq_refl eq_refl) as Hthm.
    assert (mutating_internal (path Scenario.mutating_held) = true) as Hmut
      by reflexivity.
    rewrite Hmut in Hthm.
    destruct Hthm as (_ & _ & Hother).
    + vm_compute. reflexivity.
    + exists (StorableObject.Make 103%N (Object false (IdBacked 103%N) 7)
                (<[Scenario.P1 := 13%N]> {[Scenario.P2 := 14%N]}) []).
      vm_compute. reflexivity.
    + vm_compute. reflexivity.
    + apply (Hother 2%positive); [reflexivity|discriminate|].
      vm_compute. reflexivity.
Defined.

(** C9 as stated fails twice.

    First, for a mutating call whose callable hands back an object the node
    already holds: the receiver's Access Set is overwritten with the fold,
    [{P1}], but the object stored under the destination identifier keeps
    its own Access Set, with [P1] and [P2].

    Second, for a call that is not classified as mutating: under the path
    [torch.Tensor.__call__] a plan held with [{P1, P2}] is handed the
    node, runs a mutating action of its own on that very object, and the
    outer call ends with its receiver readable by [{P1}] only. *)
Lemma mutating_call_claim_fails :
  (mutating_internal (path Scenario.mutating_held) = true /\
   access_set_at Scenario.node 103%N
   = Some (<[Scenario.P1 := 13%N]> {[Scenario.P2 := 14%N]}) /\
   folded_access_set (StorableObject.read_permissions Scenario.o103)
     (access_sets [(1%positive, Scenario.o101)]) []
   = {[Scenario.P1 := 13%N]} /\
   fst (execute_action Scenario.env Scenario.mutating_held Scenario.caller
          Scenario.node) = Returns tt /\
   access_set_of
     (snd (execute_action Scenario.env Scenario.mutating_held Scenario.caller
             Scenario.node)) 3%positive
   = Some {[Scenario.P1 := 13%N]} /\
   access_set_at
     (snd (execute_action Scenario.env Scenario.mutating_held Scenario.caller
             Scenario.node)) Scenario.dest
   = Some (<[Scenario.P1 := 11%N]> {[Scenario.P2 := 12%N]}) /\
   (dom (<[Scenario.P1 := 11%N]> {[Scenario.P2 := 12%N]} : AccessSet)
    : gset VerifyKey) <> {[Scenario.P1]})
  /\
  (mutating_internal (path PlanCase.outer) = false /\
   access_set_at PlanCase.node 104%N
   = Some (<[Scenario.P1 := 15%N]> {[Scenario.P2 := 16%N]}) /\
   fst (execute_action PlanCase.env PlanCase.outer Scenario.caller
          PlanCase.node) = Returns tt /\
   access_set_at
     (snd (execute_action PlanCase.env PlanCase.outer Scenario.caller
             PlanCase.node)) 104%N
   = Some {[Scenario.P1 := 15%N]} /\
   ({[Scenario.P1 := 15%N]} : AccessSet)
   <> <[Scenario.P1 := 15%N]> {[Scenario.P2 := 16%N]}).
Proof.
  split.
  - split; [reflexivity|]. split; [vm_compute; reflexivity|].
    split; [vm_compute; reflexivity|]. split; [vm_compute; reflexivity|].
    split; [vm_compute; reflexivity|]. split; [vm_compute; reflexivity|].
    intros Heq.
    assert (Scenario.P2 ∈ ({[Scenario.P1]} : gset VerifyKey)) as Hin.
    { rewrite <- Heq. apply elem_of_dom. by eexists. }
    apply elem_of_singleton in Hin. discriminate Hin.
  - split; [reflexivity|]. split; [vm_compute; reflexivity|].
    split; [vm_compute; reflexivity|]. split; [vm_compute; reflexivity|].
    intros Heq.
    apply (f_equal (fun m : AccessSet => m !! Scenario.P2)) in Heq.
    discriminate Heq.
Qed.

(** * Further properties *)

(** ** Algebra of the permission propagator *)

(** X1: intersecting never grants anything: the result is a sub-dictionary
    of the left operand, markers included, and its principals all belong to
    the right operand as well. *)
Theorem intersect_keys_restricts (A B : AccessSet) :
  intersect_keys A B ⊆ A /\ dom (intersect_keys A B) ⊆ dom B.
Proof.
  split.
  - apply map_subseteq_spec. intros k v. rewrite intersect_keys_lookup.
    by destruct (B !! k).
  - rewrite intersect_keys_dom. apply intersection_subseteq_r.
Qed.

(** X2: [intersect_keys] is idempotent and associative, and the empty
    Access Set absorbs on either side. *)
Theorem intersect_keys_laws (A B C : AccessSet) :
  intersect_keys A A = A /\
  intersect_keys (intersect_keys A B) C
  = intersect_keys A (intersect_keys B C) /\
  intersect_keys A ∅ = ∅ /\ intersect_keys ∅ A = ∅.
Proof.
  repeat split; apply map_eq; intros k; rewrite ?intersect_keys_lookup.
  - by destruct (A !! k).
  - destruct (C !! k), (B !! k); done.
  - by rewrite lookup_empty.
  - rewrite !lookup_empty. by destruct (A !! k).
Qed.

Lemma foldl_intersect_keys_lookup (sets : list AccessSet) (seed : AccessSet)
    (k : VerifyKey) (v : UID) :
  foldl intersect_keys seed sets !! k = Some v <->
  seed !! k = Some v /\ Forall (fun A : AccessSet => is_Some (A !! k)) sets.
Proof.
  revert seed. induction sets as [|A sets IH]; intros seed; simpl.
  - split; [intros Hk; by split|by intros [? _]].
  - rewrite IH, intersect_keys_lookup, Forall_cons. split.
    + intros [Hk Hall]. destruct (A !! k) eqn:HA; [|done]. eauto.
    + intros [Hk [[a HA] Hall]]. by rewrite HA.
Qed.

(** X3: a principal reads the result exactly when it reads the seed and
    every positional and named argument, and the marker it holds on the
    result is the one it holds on the seed. *)
Theorem folded_access_set_lookup (seed : AccessSet)
    (positional named_sets : list AccessSet) (k : VerifyKey) (v : UID) :
  folded_access_set seed positional named_sets !! k = Some v <->
  seed !! k = Some v /\
  Forall (fun A : AccessSet => is_Some (A !! k)) (positional ++ named_sets).
Proof. apply foldl_intersect_keys_lookup. Qed.

(** X4: the folded Access Set does not depend on the order of the
    arguments, nor on which of them are positional and which are named. *)
Theorem folded_access_set_order_irrelevant (seed : AccessSet)
    (positional named_sets positional' named_sets' : list AccessSet) :
  positional ++ named_sets ≡ₚ positional' ++ named_sets' ->
  folded_access_set seed positional named_sets
  = folded_access_set seed positional' named_sets'.
Proof.
  intros Hperm. apply map_eq. intros k. apply option_eq. intros v.
  unfold folded_access_set. rewrite !foldl_intersect_keys_lookup.
  by rewrite Hperm.
Qed.

Lemma folded_access_set_order_irrelevant_witness :
  folded_access_set
    (StorableObject.read_permissions Scenario.o103)
    [StorableObject.read_permissions Scenario.o101]
    [StorableObject.read_permissions Scenario.o102]
  = folded_access_set
      (StorableObject.read_permissions Scenario.o103)
      [StorableObject.read_permissions Scenario.o102;
       StorableObject.read_permissions Scenario.o101] [].
Proof.
  apply folded_access_set_order_irrelevant. simpl. apply Permutation_swap.
Defined.

(** ** The executor: failures *)


(** X9: an error raised by the invoked callable reaches the caller of
    [execute_action] unchanged, and the executor does nothing more: the
    store, the log and every Access Set are as the invocation left them.
    For a static call, which is not handed the node, the store and every
    Access Set are then those from before the run. *)
Theorem invocation_failure_propagates (env : Collaborators) (a : Action)
    (key : VerifyKey) (w w1 : world) (method : callable) (seed : AccessSet)
    (objs kobjs : list (loc * StorableObject.t)) (e : exn) :
  lib_ast env (path a) = Some method ->
  seed_of a w = Some seed ->
  lookup_all w (args a) = Some objs ->
  lookup_all w (kwargs a).*2 = Some kobjs ->
  invoke env a method key (receiver_of a w)
    (upcast env <$> payloads objs)
    (prod_map id (upcast env) <$> named (kwargs a) (payloads kobjs)) w
  = (Raises e, w1) ->
  exists w2,
    execute_action env a key w = (Raises e, w2) /\
    store w2 = store w1 /\ log w2 = log w1 /\
    (forall l, access_set_of w2 l = access_set_of w1 l) /\
    (is_static a = true ->
     store w2 = store w /\
     forall l, access_set_of w2 l = access_set_of w l).
Proof.
  intros Hm Hseed Hargs Hkw Hinv. exists w1.
  split; [|split; [done|split; [done|split; [done|]]]].
  - rewrite execute_action_unfold.
    rewrite (run_call_resolved env a key w method seed objs kobjs
               Hm Hseed Hargs Hkw).
    by rewrite Hinv.
  - intros Hst. unfold invoke in Hinv. rewrite Hst in Hinv.
    unfold lift in Hinv. by injection Hinv as _ <-.
Qed.

Lemma invocation_failure_propagates_witness :
  exists w2,
    execute_action Cases.env Cases.static_failing Scenario.caller
      Scenario.node = (Raises (CalleeError 1), w2) /\
    store w2 = store Scenario.node.
Proof.
  destruct (invocation_failure_propagates Cases.env Cases.static_failing
              Scenario.caller Scenario.node Scenario.node Cases.failing ∅
              [(1%positive, Scenario.o101)] [] (CalleeError 1))
    as (w2 & Hrun & Hstore & _);
    [reflexivity|reflexivity|reflexivity|reflexivity|reflexivity|].
  exists w2. split; [exact Hrun|exact Hstore].
Defined.



Lemma find_absent_app (w : world) (ptrs more : list Pointer.t) :
  lookup_all w ptrs = None ->
  first_absent w (ptrs ++ more) = first_absent w ptrs.
Proof.
  unfold first_absent, lookup_all. intros Hnone.
  induction ptrs as [|p ptrs IH]; [done|].
  simpl in *. unfold absent at 1 3.
  destruct (get_object w (Pointer.id_at_location p)) as [lo|]; [|done].
  apply IH. simpl in Hnone.
  match type of Hnone with
  | context [mapM ?f ?l] => by destruct (mapM f l)
  end.
Qed.

Lemma find_absent_resolved (w : world) (ptrs more : list Pointer.t)
    (objs : list (loc * StorableObject.t)) :
  lookup_all w ptrs = Some objs ->
  first_absent w (ptrs ++ more) = first_absent w more.
Proof.
  unfold first_absent, lookup_all. revert objs.
  induction ptrs as [|p ptrs IH]; intros objs Hall; [done|].
  simpl in *. unfold absent at 1.
  destruct (get_object w (Pointer.id_at_location p)) as [lo|]; [|done].
  simpl in Hall.
  match type of Hall with
  | context [mapM ?f ?l] => destruct (mapM f l) as [rest|] eqn:Hrest
  end; [|done].
  by apply (IH rest).
Qed.

Lemma resolve_args_first_absent (w : world) (ptrs : list Pointer.t)
    (perms : AccessSet) (resolved : list pyval) (tagged : list loc)
    (k : UID) :
  first_absent w ptrs = Some k ->
  resolve_args w ptrs perms resolved tagged = Raises (KeyError k).
Proof.
  unfold first_absent. revert perms resolved tagged.
  induction ptrs as [|p ptrs IH]; intros perms resolved tagged; [done|].
  simpl. unfold absent at 1, getitem.
  destruct (get_object w (Pointer.id_at_location p)) as [[l o]|].
  - apply IH.
  - by intros [= <-].
Qed.

Lemma resolve_kwargs_first_absent (w : world)
    (kw : list (string * Pointer.t)) (perms : AccessSet)
    (resolved : list (string * pyval)) (tagged : list (string * loc))
    (k : UID) :
  first_absent w kw.*2 = Some k ->
  resolve_kwargs w kw perms resolved tagged = Raises (KeyError k).
Proof.
  unfold first_absent. revert perms resolved tagged.
  induction kw as [|[n p] kw IH]; intros perms resolved tagged; [done|].
  simpl. unfold absent at 1, getitem.
  destruct (get_object w (Pointer.id_at_location p)) as [[l o]|].
  - apply IH.
  - by intros [= <-].
Qed.

(** X11: when the path resolves and the receiver (if any) is held, the
    error for an absent argument is the KeyError of the first absent
    identifier in call order, positional arguments before named ones, and
    the node is exactly as it was. *)
Theorem missing_argument_key_error (env : Collaborators) (a : Action)
    (key : VerifyKey) (w : world) (method : callable) (seed : AccessSet)
    (k : UID) :
  lib_ast env (path a) = Some method ->
  seed_of a w = Some seed ->
  first_absent w (args a ++ (kwargs a).*2) = Some k ->
  execute_action env a key w = (Raises (KeyError k), w).
Proof.
  intros Hm Hseed Hfirst. rewrite execute_action_unfold.
  unfold run_call, resolve_method. rewrite Hm. run_M.
  rewrite (resolve_self_seeded _ _ _ Hseed).
  destruct (lookup_all w (args a)) as [objs|] eqn:Hargs.
  - rewrite (resolve_args_resolved _ _ _ _ _ _ Hargs). simpl.
    rewrite (find_absent_resolved _ _ _ _ Hargs) in Hfirst.
    by rewrite (resolve_kwargs_first_absent _ _ _ _ _ _ Hfirst).
  - rewrite (find_absent_app _ _ _ Hargs) in Hfirst.
    by rewrite (resolve_args_first_absent _ _ _ _ _ _ Hfirst).
Qed.

Lemma missing_argument_key_error_witness :
  execute_action Scenario.env Scenario.absent_argument Scenario.caller
    Scenario.node = (Raises (KeyError 998%N), Scenario.node).
Proof.
  apply (missing_argument_key_error Scenario.env Scenario.absent_argument
           Scenario.caller Scenario.node Scenario.fresh_value ∅);
    reflexivity.
Defined.

(** X12: two failures come before any look at the store.  A path the
    capability table does not know raises the resolution error whatever the
    rest of the action is; and when the path resolves, a non-static action
    built without a receiver reference raises an attribute error.  In both
    cases the node is untouched, log included. *)
Theorem execute_action_early_failures (env : Collaborators) (a : Action)
    (key : VerifyKey) (w : world) :
  match lib_ast env (path a) with
  | None =>
      execute_action env a key w = (Raises (ResolutionError (path a)), w)
  | Some _ =>
      is_static a = false -> _self a = None ->
      execute_action env a key w = (Raises AttributeError, w)
  end.
Proof.
  rewrite execute_action_unfold. unfold run_call, resolve_method.
  destruct (lib_ast env (path a)) as [method|]; [|done].
  intros Hst Hself. unfold resolve_self. rewrite Hst, Hself. done.
Qed.

Lemma execute_action_early_failures_witness :
  execute_action Scenario.env
    (MkAction "torch.Tensor.add" None [Scenario.ptr 101%N] [] Scenario.dest
       false Scenario.here 1%N)
    Scenario.caller Scenario.node
  = (Raises AttributeError, Scenario.node).
Proof.
  apply (execute_action_early_failures Scenario.env
           (MkAction "torch.Tensor.add" None [Scenario.ptr 101%N] []
              Scenario.dest false Scenario.here 1%N)
           Scenario.caller Scenario.node);
    reflexivity.
Defined.

(** ** The executor: what a completed run leaves behind *)

Lemma resolve_self_inv (a : Action) (w w0 : world)
    (o : outcome receiver_step) :
  resolve_self a w = (o, w0) ->
  store w0 = store w /\ heap w0 = heap w /\
  forall rs seed, o = Returns (Seeded rs seed) ->
                  w0 = w /\ rs = receiver_of a w.
Proof.
  unfold resolve_self, receiver_of.
  destruct (is_static a).
  { intros [= <- <-]. split; [done|split; [done|]].
    by intros rs seed [= <- _]. }
  destruct (_self a) as [p|]; [|by intros [= <- <-]].
  run_M.
  destruct (get_object w (Pointer.id_at_location p)) as [[l so]|].
  - intros [= <- <-]. split; [done|split; [done|]].
    by intros rs seed [= <- _].
  - by intros [= <- <-].
Qed.

Lemma run_call_log_only (env : Collaborators) (a : Action) (key : VerifyKey)
    (w w1 : world) (o : outcome (option call_frame)) :
  run_call env a key w = (o, w1) ->
  (is_static a = false ->
   forall p l self_obj, _self a = Some p ->
     get_object w (Pointer.id_at_location p) = Some (l, self_obj) ->
     plan_shaped a self_obj = false) ->
  store w1 = store w /\ heap w1 = heap w.
Proof.
  intros Hcall Hshape. revert Hcall.
  unfold run_call, resolve_method.
  destruct (lib_ast env (path a)) as [method|]; [|by intros [= _ <-]].
  run_M.
  destruct (resolve_self a w) as [[[|rs seed]|e] w0] eqn:Hself.
  all: destruct (resolve_self_inv _ _ _ _ Hself) as (Hs0 & Hh0 & Hseeded).
  - by intros [= _ <-].
  - destruct (Hseeded rs seed eq_refl) as [-> ->].
    destruct (resolve_args w (args a) seed [] []) as [[[pa ra] ta]|e'];
      [|by intros [= _ <-]].
    destruct (resolve_kwargs w (kwargs a) pa [] []) as [[[pk rk] tk]|e'];
      [|by intros [= _ <-]].
    destruct (invoke env a method key _ (upcast env <$> ra)
                (prod_map id (upcast env) <$> rk) w) as [o' w2] eqn:Hinv.
    destruct (invoke_keeps_store _ _ _ _ _ _ _ _ _ _ Hinv) as [Hs Hh].
    { intros self_obj Hst Hobj. unfold receiver_of in Hobj.
      rewrite Hst in Hobj. destruct (_self a) as [p|] eqn:Hp; [|done].
      simpl in Hobj.
      destruct (get_object w (Pointer.id_at_location p)) as [[l so]|] eqn:Hg;
        [|done].
      simpl in Hobj. pose proof Hg as Hg'.
      apply get_object_Some in Hg' as [_ Ho]. rewrite Ho in Hobj.
      injection Hobj as <-. by eapply Hshape. }
    by destruct o'; intros [= _ <-].
  - by intros [= _ <-].
Qed.

(** An attribute write keeps the object in place. *)
Lemma alter_keeps (f : StorableObject.t -> StorableObject.t) (l l' : loc)
    (hp : gmap loc StorableObject.t) (o : StorableObject.t)
    (P : StorableObject.t -> StorableObject.t -> Prop) :
  (forall x, P x x) -> (forall x, P x (f x)) ->
  hp !! l' = Some o ->
  exists o', alter f l hp !! l' = Some o' /\ P o o'.
Proof.
  intros Hrefl Hf Hl'. rewrite lookup_alter. case_decide; subst.
  - rewrite Hl'. simpl. eauto.
  - eauto.
Qed.

Lemma propagate_to_receiver_core (mutating : bool) (rs : option loc)
    (perms : AccessSet) (w w1 : world) (l' : loc) (o : StorableObject.t) :
  propagate_to_receiver mutating rs perms w = (Returns tt, w1) ->
  heap w !! l' = Some o ->
  exists o', heap w1 !! l' = Some o' /\ same_core o o'.
Proof.
  unfold propagate_to_receiver.
  destruct mutating; [destruct rs as [lr|]|]; run_M; intros [= <-] Hl';
    simpl; try (by exists o).
  by apply alter_keeps.
Qed.

Lemma tag_result_core (env : Collaborators) (path : string) (l : loc)
    (rs : option loc) (ta : list loc) (tk : list (string * loc))
    (w w1 : world) (l' : loc) (o : StorableObject.t) :
  tag_result env path l rs ta tk w = (Returns tt, w1) ->
  heap w !! l' = Some o ->
  exists o', heap w1 !! l' = Some o' /\ same_core o o' /\
             StorableObject.read_permissions o'
             = StorableObject.read_permissions o.
Proof.
  unfold tag_result. run_M.
  destruct (heap w !! l) as [ro|]; intros [= <-] Hl'; simpl.
  - apply (alter_keeps _ _ _ _ _
             (fun x y => same_core x y /\
                         StorableObject.read_permissions y
                         = StorableObject.read_permissions x)); done.
  - by exists o.
Qed.

(** The objects of the node through the tail of [execute_action]: every
    object that was there stays, with its identifier and payload; a result
    that is not a Stored Object becomes a new object, at a location that
    was free, filed under the destination identifier. *)
Lemma commit_objects (env : Collaborators) (a : Action) (mutating : bool)
    (rs : option loc) (perms : AccessSet) (ta : list loc)
    (tk : list (string * loc)) (r : pyval) (w w' : world) :
  commit env a mutating rs perms ta tk r w = (Returns tt, w') ->
  (exists l, store w' = <[id_at_location a := l]> (store w) /\
             (forall lr, r = Stored lr -> l = lr) /\
             (is_Stored r = false ->
              heap w !! l = None /\
              exists o, heap w' !! l = Some o /\
                        StorableObject.id o = id_at_location a /\
                        StorableObject.data o = r /\
                        StorableObject.read_permissions o = perms)) /\
  log w' = log w /\
  (forall l' o, heap w !! l' = Some o ->
                exists o', heap w' !! l' = Some o' /\ same_core o o').
Proof.
  unfold commit, mbind, M_bind.
  destruct (propagate_to_receiver_spec mutating rs perms w)
    as (w1 & Hrun1 & Hst1 & Hlog1 & Hdom1 & _).
  destruct (wrap_result_spec (id_at_location a) r perms w1)
    as (l & w2 & Hrun2 & Hst2 & Hlog2 & Hwrap).
  destruct (tag_result_spec env (path a) l rs ta tk w2)
    as (w3 & Hrun3 & Hst3 & Hlog3 & _).
  rewrite Hrun1, Hrun2, Hrun3. unfold setitem. intros [= <-]. simpl.
  split; [|split].
  - exists l. rewrite Hst3, Hst2, Hst1. split; [done|]. split.
    + intros lr ->. by destruct Hwrap as [-> _].
    + intros Hfresh.
      assert (heap w1 !! l = None /\
              heap w2 = <[l := StorableObject.Make (id_at_location a) r
                                  perms []]> (heap w1)) as [Hnone Hheap]
        by (by destruct r).
      split.
      * apply not_elem_of_dom. rewrite <- Hdom1. by apply not_elem_of_dom.
      * destruct (tag_result_core _ _ _ _ _ _ _ _ l
                    (StorableObject.Make (id_at_location a) r perms [])
                    Hrun3)
          as (o' & Ho' & [Hid Hdata] & Hperms).
        { rewrite Hheap. apply lookup_insert_eq. }
        exists o'. by rewrite Hid, Hdata, Hperms.
  - by rewrite Hlog3, Hlog2, Hlog1.
  - intros l' o Hl'.
    destruct (propagate_to_receiver_core _ _ _ _ _ _ _ Hrun1 Hl')
      as (o1 & Ho1 & Hid1 & Hdata1).
    assert (heap w2 !! l' = Some o1) as Ho2.
    { destruct r; try (destruct Hwrap as [Hnone ->];
        rewrite lookup_insert_ne; [done|congruence]).
      by destruct Hwrap as [_ ->]. }
    destruct (tag_result_core _ _ _ _ _ _ _ _ _ _ Hrun3 Ho2)
      as (o3 & Ho3 & [Hid3 Hdata3] & _).
    exists o3. split; [done|]. split; congruence.
Qed.

Lemma execute_action_tail (env : Collaborators) (a : Action)
    (key : VerifyKey) (w w1 w' : world) (fr : call_frame) :
  run_call env a key w = (Returns (Some fr), w1) ->
  execute_action env a key w = (Returns tt, w') ->
  exists r w2,
    assign_identity (id_at_location a) (result fr) w1 = (Returns r, w2) /\
    commit env a (mutating_internal (path a)) (resolved_self fr)
      (result_read_permissions fr) (tag_args fr) (tag_kwargs fr) r w2
    = (Returns tt, w').
Proof.
  intros Hcall. rewrite execute_action_unfold, Hcall.
  destruct (assign_identity _ _ w1) as [[r|e] w2]; [eauto|done].
Qed.

Lemma assign_identity_objects (dest : UID) (r r' : pyval) (w w1 : world) :
  assign_identity dest r w = (Returns r', w1) ->
  (is_Stored r = false -> w1 = w) /\
  (forall lr, r = Stored lr ->
     heap w1 = alter (StorableObject.set_id dest) lr (heap w)) /\
  forall l o, heap w !! l = Some o ->
              exists o', heap w1 !! l = Some o' /\
                         StorableObject.data o' = StorableObject.data o.
Proof.
  intros Hid.
  destruct (assign_identity_frame _ _ _ _ _ Hid) as (_ & _ & _ & Hsame).
  split; [done|]. destruct r as [v|v i|p slot v|lr];
    try (rewrite (Hsame eq_refl); split; [done|]; by eauto).
  revert Hid. simpl. run_M. intros [= _ <-]. simpl. split.
  - by intros ? [= <-].
  - intros l o Hl.
    by apply (alter_keeps _ _ _ _ _
                (fun x y => StorableObject.data y = StorableObject.data x)).
Qed.

(** X13: a completed run writes exactly one store entry, the destination
    identifier; every other identifier holds the object it held when the
    invocation returned, no held object is dropped, and nothing is logged
    after the invocation.  When the call was not handed the node, the
    store when the invocation returned is the store from before the run. *)
Theorem execute_action_writes_only_destination (env : Collaborators)
    (a : Action) (key : VerifyKey) (w w1 w' : world) (fr : call_frame) :
  run_call env a key w = (Returns (Some fr), w1) ->
  execute_action env a key w = (Returns tt, w') ->
  is_Some (store w' !! id_at_location a) /\
  (forall k, k <> id_at_location a -> store w' !! k = store w1 !! k) /\
  log w' = log w1 /\
  (forall l, is_Some (heap w1 !! l) -> is_Some (heap w' !! l)) /\
  ((is_static a = false ->
    forall p l self_obj, _self a = Some p ->
      get_object w (Pointer.id_at_location p) = Some (l, self_obj) ->
      plan_shaped a self_obj = false) ->
   store w1 = store w).
Proof.
  intros Hcall Hrun.
  destruct (execute_action_tail _ _ _ _ _ _ _ Hcall Hrun)
    as (r & w2 & Hid & Hcommit).
  destruct (assign_identity_frame _ _ _ _ _ Hid) as (Hst2 & Hlog2 & _ & _).
  destruct (assign_identity_objects _ _ _ _ _ Hid) as (_ & _ & Hkeep2).
  destruct (commit_objects _ _ _ _ _ _ _ _ _ _ Hcommit)
    as ((l & Hstore & _ & _) & Hlog & Hkeep).
  split; [|split; [|split; [|split]]].
  - rewrite Hstore, lookup_insert_eq. by eexists.
  - intros k Hk. by rewrite Hstore, lookup_insert_ne, Hst2.
  - by rewrite Hlog, Hlog2.
  - intros l0 [o Hl0].
    destruct (Hkeep2 _ _ Hl0) as (o2 & Ho2 & _).
    destruct (Hkeep _ _ Ho2) as (o3 & Ho3 & _).
    by exists o3.
  - intros Hshape. by eapply run_call_log_only.
Qed.

Lemma execute_action_writes_only_destination_witness :
  store (snd (execute_action Scenario.env Scenario.mutating_call
                Scenario.caller Scenario.node)) !! 101%N
  = Some 1%positive.
Proof.
  destruct (execute_action_writes_only_destination Scenario.env
              Scenario.mutating_call Scenario.caller Scenario.node
              Scenario.node
              (snd (execute_action Scenario.env Scenario.mutating_call
                      Scenario.caller Scenario.node))
              (Frame (Some 3%positive) {[Scenario.P1 := 13%N]}
                 [1%positive] [] (Primitive 0)))
    as (_ & Hothers & _);
    [vm_compute; reflexivity|vm_compute; reflexivity|].
  etrans; [apply Hothers; discriminate|]. reflexivity.
Defined.

(** X14: a completed run changes the Access Set of no object the node
    already had, except the receiver of a call classified as mutating. *)
Theorem only_receiver_access_set_changes (env : Collaborators) (a : Action)
    (key : VerifyKey) (w w1 w' : world) (fr : call_frame) (l : loc)
    (A : AccessSet) :
  run_call env a key w = (Returns (Some fr), w1) ->
  execute_action env a key w = (Returns tt, w') ->
  access_set_of w1 l = Some A ->
  mutating_internal (path a) = false \/ resolved_self fr <> Some l ->
  access_set_of w' l = Some A.
Proof.
  intros Hcall Hrun Hl Hother.
  destruct (execute_action_after_call _ _ _ _ _ _ _ Hcall Hrun)
    as (l0 & _ & _ & Hnew & Hsets).
  rewrite Hsets.
  destruct (decide (l = l0 /\ is_Stored (result fr) = false))
    as [[-> Hfresh]|_].
  - rewrite (Hnew Hfresh) in Hl. done.
  - rewrite decide_False; [done|].
    intros [Hmut Hrs]. destruct Hother as [Hnm|Hnr]; congruence.
Qed.

Lemma only_receiver_access_set_changes_witness :
  access_set_of
    (snd (execute_action Scenario.env Scenario.mutating_call
            Scenario.caller Scenario.node)) 1%positive
  = Some {[Scenario.P1 := 10%N]}.
Proof.
  apply (only_receiver_access_set_changes Scenario.env
           Scenario.mutating_call Scenario.caller Scenario.node
           Scenario.node
           (snd (execute_action Scenario.env Scenario.mutating_call
                   Scenario.caller Scenario.node))
           (Frame (Some 3%positive) {[Scenario.P1 := 13%N]}
              [1%positive] [] (Primitive 0)) 1%positive);
    [vm_compute; reflexivity|vm_compute; reflexivity|vm_compute; reflexivity
    |right; discriminate].
Defined.

(** X15: a result that is not already a Stored Object is filed as a new
    object, in place of no object the node had: its identifier is the
    destination identifier and its Access Set is the folded one; for a
    primitive result its payload is the primitive envelope carrying the
    destination identifier, and for a result without an identity slot its
    payload is the result as returned. *)
Theorem fresh_result_object (env : Collaborators) (a : Action)
    (key : VerifyKey) (w w1 w' : world) (fr : call_frame) :
  run_call env a key w = (Returns (Some fr), w1) ->
  execute_action env a key w = (Returns tt, w') ->
  is_Stored (result fr) = false ->
  exists l o,
    get_object w' (id_at_location a) = Some (l, o) /\
    heap w1 !! l = None /\
    StorableObject.id o = id_at_location a /\
    StorableObject.read_permissions o = result_read_permissions fr /\
    (forall v, result fr = Primitive v ->
               StorableObject.data o = SyPrimitive v (id_at_location a)) /\
    (forall is_plan v, result fr = Object is_plan NoId v ->
                       StorableObject.data o = Object is_plan NoId v).
Proof.
  intros Hcall Hrun Hfresh.
  destruct (execute_action_tail _ _ _ _ _ _ _ Hcall Hrun)
    as (r & w2 & Hid & Hcommit).
  destruct (assign_identity_objects _ _ _ _ _ Hid) as (Hsame & _ & _).
  destruct (assign_identity_result _ _ _ _ _ Hid) as [Hstored _].
  rewrite (Hsame Hfresh) in *.
  destruct (commit_objects _ _ _ _ _ _ _ _ _ _ Hcommit)
    as ((l & Hstore & _ & Hnew) & _ & _).
  destruct Hnew as (Hnone & o & Ho & Hoid & Hdata & Hperms);
    [by rewrite Hstored|].
  exists l, o. split; [|split; [done|split; [done|split; [done|split]]]].
  - apply get_object_Some. split; [|done].
    rewrite Hstore. apply lookup_insert_eq.
  - intros v Hv. rewrite Hv in Hid. simpl in Hid.
    injection Hid as <-. done.
  - intros is_plan v Hv. rewrite Hv in Hid. simpl in Hid.
    injection Hid as <-. done.
Qed.

Lemma fresh_result_object_witness :
  exists l o,
    get_object
      (snd (execute_action Scenario.env Scenario.static_call
              Scenario.caller Scenario.node)) Scenario.dest = Some (l, o) /\
    StorableObject.id o = Scenario.dest /\
    StorableObject.data o = SyPrimitive 0 Scenario.dest.
Proof.
  destruct (fresh_result_object Scenario.env Scenario.static_call
              Scenario.caller Scenario.node Scenario.node
              (snd (execute_action Scenario.env Scenario.static_call
                      Scenario.caller Scenario.node))
              (Frame None ∅ [1%positive; 2%positive] [] (Primitive 0)))
    as (l & o & Hget & _ & Hid & _ & Hprim & _);
    [vm_compute; reflexivity|vm_compute; reflexivity|reflexivity|].
  exists l, o. split; [exact Hget|]. split; [exact Hid|].
  exact (Hprim 0%Z eq_refl).
Defined.

(** X16: a result that is already a Stored Object is not copied: the very
    same object is filed under the destination identifier, with its
    identifier attribute overwritten by the destination identifier and its
    payload kept, and every identifier that held it before still holds it. *)
Theorem stored_result_is_renamed (env : Collaborators) (a : Action)
    (key : VerifyKey) (w w1 w' : world) (fr : call_frame) (lr : loc)
    (o1 : StorableObject.t) :
  run_call env a key w = (Returns (Some fr), w1) ->
  execute_action env a key w = (Returns tt, w') ->
  result fr = Stored lr ->
  heap w1 !! lr = Some o1 ->
  exists o,
    get_object w' (id_at_location a) = Some (lr, o) /\
    StorableObject.id o = id_at_location a /\
    StorableObject.data o = StorableObject.data o1 /\
    forall k, store w1 !! k = Some lr -> get_object w' k = Some (lr, o).
Proof.
  intros Hcall Hrun Hres Hlr.
  destruct (execute_action_tail _ _ _ _ _ _ _ Hcall Hrun)
    as (r & w2 & Hid & Hcommit).
  destruct (assign_identity_frame _ _ _ _ _ Hid) as (Hst2 & _ & _ & _).
  destruct (assign_identity_objects _ _ _ _ _ Hid) as (_ & Hheap2 & _).
  destruct (assign_identity_result _ _ _ _ _ Hid) as [_ Hkeep].
  rewrite Hres in Hkeep. specialize (Hkeep eq_refl). subst r.
  specialize (Hheap2 lr Hres).
  destruct (commit_objects _ _ _ _ _ _ _ _ _ _ Hcommit)
    as ((l & Hstore & Halias & _) & _ & Hobjs).
  rewrite <- (Halias lr eq_refl) in *.
  destruct (Hobjs l (StorableObject.set_id (id_at_location a) o1))
    as (o & Ho & Hoid & Hdata).
  { rewrite Hheap2, lookup_alter, decide_True by done. by rewrite Hlr. }
  exists o. split; [|split; [done|split; [done|]]].
  - apply get_object_Some. split; [|done].
    rewrite Hstore. apply lookup_insert_eq.
  - intros k Hk. apply get_object_Some. split; [|done].
    rewrite Hstore. destruct (decide (id_at_location a = k)) as [->|Hne].
    + apply lookup_insert_eq.
    + rewrite lookup_insert_ne by done. by rewrite Hst2.
Qed.

Lemma stored_result_is_renamed_witness :
  exists o,
    get_object
      (snd (execute_action Scenario.env Scenario.static_held
              Scenario.caller Scenario.node)) 102%N
    = Some (2%positive, o) /\
    StorableObject.id o = Scenario.dest.
Proof.
  destruct (stored_result_is_renamed Scenario.env Scenario.static_held
              Scenario.caller Scenario.node Scenario.node
              (snd (execute_action Scenario.env Scenario.static_held
                      Scenario.caller Scenario.node))
              (Frame None ∅ [1%positive; 2%positive] []
                 (Stored 2%positive))
              2%positive Scenario.o102)
    as (o & _ & Hid & _ & Hheld);
    [vm_compute; reflexivity|vm_compute; reflexivity|reflexivity
    |reflexivity|].
  exists o. split; [|exact Hid]. apply Hheld. reflexivity.
Defined.

(** X17: [execute_action] reads the path, the static flag, the arguments,
    the destination identifier and, for a non-static call only, the
    receiver reference; it never reads the address or the message id, and a
    static call never reads its receiver reference. *)
Theorem execute_action_reads (env : Collaborators) (a b : Action)
    (key : VerifyKey) (w : world) :
  path a = path b ->
  is_static a = is_static b ->
  args a = args b ->
  kwargs a = kwargs b ->
  id_at_location a = id_at_location b ->
  (is_static a = false -> _self a = _self b) ->
  execute_action env a key w = execute_action env b key w.
Proof.
  destruct a as [pa sa aa ka da ta ada ma], b as [pb sb ab kb db tb adb mb].
  simpl. intros <- <- <- <- <- Hself.
  destruct ta.
  - reflexivity.
  - by rewrite (Hself eq_refl).
Qed.

Lemma execute_action_reads_witness :
  execute_action Scenario.env Scenario.static_call Scenario.caller
    Scenario.node
  = execute_action Scenario.env
      (MkAction "torch.zeros" (Some (Scenario.ptr 999%N))
         [Scenario.ptr 101%N; Scenario.ptr 102%N] [] Scenario.dest true
         (MkAddress []) 77%N)
      Scenario.caller Scenario.node.
Proof.
  apply execute_action_reads; try reflexivity. discriminate.
Defined.

(** ** remap_input, continued *)

Lemma replace_all_clears (current_input new_input : Pointer.t)
    (args : list Pointer.t) :
  same_id new_input current_input = false ->
  Forall (fun arg => same_id arg current_input = false)
         (replace_all current_input new_input args).
Proof.
  intros Hnew. unfold replace_all. apply Forall_fmap, Forall_forall.
  intros arg _. simpl. by destruct (same_id arg current_input) eqn:Harg.
Qed.

(** X18: when the receiver does not match and the replacement carries a
    different identifier, no positional argument names the current
    identifier any more after [remap_input]. *)
Theorem remap_input_clears (a a' : Action)
    (current_input new_input receiver : Pointer.t) :
  _self a = Some receiver ->
  same_id receiver current_input = false ->
  same_id new_input current_input = false ->
  remap_input a current_input new_input = Returns a' ->
  Forall (fun arg => same_id arg current_input = false) (args a').
Proof.
  intros Hself Hrecv Hnew. unfold remap_input. rewrite Hself, Hrecv.
  intros [= <-]. simpl. rewrite remap_args_replace_all.
  by apply replace_all_clears.
Qed.

Lemma remap_input_clears_witness :
  Forall (fun arg => same_id arg Scenario.x = false)
         [Scenario.y; Scenario.z; Scenario.y].
Proof.
  apply (remap_input_clears Scenario.twice
           (MkAction "torch.Tensor.add" (Some Scenario.z)
              [Scenario.y; Scenario.z; Scenario.y] [] 50%N false
              Scenario.here 1%N)
           Scenario.x Scenario.y Scenario.z);
    reflexivity.
Defined.

Lemma replace_all_idemp (current_input new_input : Pointer.t)
    (args : list Pointer.t) :
  replace_all current_input new_input
    (replace_all current_input new_input args)
  = replace_all current_input new_input args.
Proof.
  unfold replace_all. rewrite <- list_fmap_compose.
  apply list_fmap_ext. intros _ arg _. simpl.
  destruct (same_id arg current_input) eqn:Harg; [|by rewrite Harg].
  by destruct (same_id new_input current_input).
Qed.

(** X19: when the receiver does not match, remapping a second time with
    the same pair changes nothing more.  (When the receiver does match,
    the first call rewrites only the receiver and a second call may go on
    to rewrite arguments.) *)
Theorem remap_input_scan_idempotent (a a' : Action)
    (current_input new_input receiver : Pointer.t) :
  _self a = Some receiver ->
  same_id receiver current_input = false ->
  remap_input a current_input new_input = Returns a' ->
  remap_input a' current_input new_input = Returns a'.
Proof.
  intros Hself Hrecv. unfold remap_input at 1. rewrite Hself, Hrecv.
  intros [= <-]. unfold remap_input. simpl. rewrite Hrecv.
  by rewrite !remap_args_replace_all, replace_all_idemp.
Qed.

Lemma remap_input_scan_idempotent_witness :
  remap_input
    (MkAction "torch.Tensor.add" (Some Scenario.z)
       [Scenario.y; Scenario.z; Scenario.y] [] 50%N false Scenario.here 1%N)
    Scenario.x Scenario.y
  = Returns
      (MkAction "torch.Tensor.add" (Some Scenario.z)
         [Scenario.y; Scenario.z; Scenario.y] [] 50%N false Scenario.here
         1%N).
Proof.
  apply (remap_input_scan_idempotent Scenario.twice _ Scenario.x Scenario.y
           Scenario.z);
    reflexivity.
Defined.

(** ** The wire mapping, continued *)

Section WireReading.
Context `{Serializable (option Pointer.t)} `{Serializable Pointer.t}
        `{Serializable UID} `{Serializable Address}.

(** X20: whatever the message, an action read from the wire is
    non-static, each of its fields is the reading of the corresponding wire
    field, with the arguments in wire order and the named arguments under
    their wire names; its message id is the one on the wire, never a
    newly drawn one. *)
Theorem proto2object_fields (generated : UID)
    (proto : RunClassMethodAction_PB) (a : Action) :
  _proto2object generated proto = Some a ->
  is_static a = false /\
  path a = pb_path proto /\
  _deserialize (pb__self proto) = Some (_self a) /\
  Forall2 (fun b p => _deserialize b = Some p) (pb_args proto) (args a) /\
  Forall2 (fun kb kp => kb.1 = kp.1 /\ _deserialize kb.2 = Some kp.2)
          (pb_kwargs proto) (kwargs a) /\
  _deserialize (pb_id_at_location proto) = Some (id_at_location a) /\
  _deserialize (pb_address proto) = Some (address a) /\
  _deserialize (pb_msg_id proto) = Some (msg_id a) /\
  forall generated', _proto2object generated' proto = Some a.
Proof.
  unfold _proto2object. intros Hread.
  destruct (_deserialize (pb__self proto)) as [s|] eqn:Hs; [|done].
  simpl in Hread.
  destruct (mapM _deserialize (pb_args proto)) as [ar|] eqn:Har; [|done].
  simpl in Hread.
  destruct (mapM _ (pb_kwargs proto)) as [kw|] eqn:Hkw; [|done].
  simpl in Hread.
  destruct (_deserialize (pb_id_at_location proto)) as [d|] eqn:Hd; [|done].
  simpl in Hread.
  destruct (_deserialize (pb_address proto)) as [ad|] eqn:Had; [|done].
  simpl in Hread.
  destruct (_deserialize (pb_msg_id proto)) as [m|] eqn:Hm; [|done].
  simpl in Hread. injection Hread as <-. simpl.
  repeat split; try done.
  - by apply mapM_Some.
  - apply mapM_Some in Hkw. eapply Forall2_impl; [exact Hkw|].
    intros [k b] [k' p]. simpl.
    destruct (_deserialize b) as [p'|]; simpl; [|done].
    by intros [= <- <-].
Qed.

(** X21: a message with an argument blob that cannot be read yields no
    action at all. *)
Theorem proto2object_rejects (generated : UID)
    (proto : RunClassMethodAction_PB) (b : blob) :
  b ∈ pb_args proto ->
  _deserialize (A := Pointer.t) b = None ->
  _proto2object generated proto = None.
Proof.
  intros Hin Hbad. unfold _proto2object.
  destruct (_deserialize (pb__self proto)) as [s|]; [|done]. simpl.
  assert (mapM _deserialize (pb_args proto) = (None : option (list Pointer.t)))
    as ->; [|done].
  apply mapM_None, Exists_exists. eauto.
Qed.
End WireReading.

Section WireInjectivity.
Context `{Serializable (option Pointer.t)} `{Serializable Pointer.t}
        `{Serializable UID} `{Serializable Address}.
Context `{!Lossless (option Pointer.t)} `{!Lossless Pointer.t}
        `{!Lossless UID} `{!Lossless Address}.

Lemma object2proto_read_back (generated : UID) (a : Action) :
  _proto2object generated (_object2proto a) = Some (clear_is_static a).
Proof.
  unfold _proto2object, _object2proto. simpl.
  rewrite deserialize_serialize. simpl.
  rewrite deserialize_args. simpl.
  rewrite deserialize_kwargs. simpl.
  by repeat (rewrite deserialize_serialize; simpl).
Qed.

(** X22: with lossless serializers, two actions have the same wire form
    exactly when they agree on every field other than the static flag: the
    wire form separates any two actions that differ elsewhere, and never
    separates a static action from its non-static twin. *)
Theorem object2proto_injective_up_to_is_static (a b : Action) :
  _object2proto a = _object2proto b <->
  clear_is_static a = clear_is_static b.
Proof.
  split.
  - intros Heq.
    pose proof (object2proto_read_back 0%N a) as Ha.
    pose proof (object2proto_read_back 0%N b) as Hb.
    rewrite Heq in Ha. congruence.
  - unfold clear_is_static, _object2proto.
    by intros [= -> -> -> -> -> -> ->].
Qed.
End WireInjectivity.

Section CodecWitnesses.
Import Codec.
#[local] Existing Instances uid_lossless address_lossless pointer_lossless
  receiver_lossless.

Lemma proto2object_fields_witness :
  is_static Scenario.twice = false /\
  forall generated',
    _proto2object generated' (_object2proto Scenario.twice)
    = Some Scenario.twice.
Proof.
  destruct (proto2object_fields 0%N (_object2proto Scenario.twice)
              Scenario.twice)
    as (Hstatic & _ & _ & _ & _ & _ & _ & _ & Hany);
    [vm_compute; reflexivity|].
  split; [exact Hstatic|exact Hany].
Defined.

Lemma proto2object_rejects_witness :
  _proto2object 0%N
    (MkProto "torch.zeros" [] [[11%N; 0%N]; [12%N]] [] [50%N] [7%N] [1%N])
  = None.
Proof.
  apply (proto2object_rejects 0%N _ [12%N]).
  - apply list_elem_of_In. right. left. reflexivity.
  - reflexivity.
Defined.

Lemma object2proto_injective_up_to_is_static_witness :
  _object2proto Scenario.no_receiver
  = _object2proto (clear_is_static Scenario.no_receiver).
Proof.
  apply (proj2 (object2proto_injective_up_to_is_static
                  Scenario.no_receiver
                  (clear_is_static Scenario.no_receiver))).
  reflexivity.
Defined.
End CodecWitnesses.

(** ** The object action services *)

(** X23: the three services split the action messages between them: every
    message class is handled by exactly one service. *)
Theorem message_handler_types_partition (m : Service.message_type) :
  exists s, m ∈ Service.message_handler_types s /\
            forall s', m ∈ Service.message_handler_types s' -> s' = s.
Proof.
  destruct m;
    [exists Service.ImmediateObjectActionServiceWithoutReply
    |exists Service.EventualObjectActionServiceWithoutReply
    |exists Service.ImmediateObjectActionServiceWithReply];
    (split; [apply list_elem_of_In; by left|]);
    intros [] Hin; try done;
    apply list_elem_of_In in Hin as [Hin|[]]; discriminate Hin.
Qed.
